(** * nclient6: the DHCPv6 client's transaction registry, receive loop,
      retry policy and shutdown, embedded from [dhcpv6/nclient6/client.go].

    The Go code is a set of goroutines over one shared [Client].  The
    embedding keeps the shared state explicit ([World]), writes every Go
    function as a program of a small state-and-failure monad, and drives
    the blocking operations (mutex lock, [select], [WaitGroup.Wait]) by an
    explicit schedule: a list of steps of the other goroutines and of
    choices of the [select] statement. *)

From Stdlib Require Import ZArith List Bool String Strings.Byte.
From stdpp Require Import base option list gmap strings.

Local Open Scope Z_scope.

(** ** Machine integers *)

(** Go's [int], [int64] and [time.Duration] on a 64-bit target: signed,
    wrapping on overflow. *)
Definition wrap64 (z : Z) : Z := (z + 2 ^ 63) mod 2 ^ 64 - 2 ^ 63.

Definition int64_range (z : Z) : Prop := - 2 ^ 63 <= z < 2 ^ 63.

(** ** Data of the wire and of the [dhcpv6] package *)

Abbreviation bytes := (list Byte.byte).

#[global] Instance byte_eq_dec : EqDecision Byte.byte := Byte.byte_eq_dec.

#[global] Program Instance byte_countable : Countable Byte.byte :=
  inj_countable' Byte.to_N (λ n, default Byte.x00 (Byte.of_N n)) _.
Next Obligation. intros b. simpl. by rewrite Byte.of_to_N. Qed.

(** [dhcpv6.TransactionID] is [[3]byte]. *)
Abbreviation TransactionID := (Byte.byte * Byte.byte * Byte.byte)%type.

(** [dhcpv6.MessageType] is [uint8]. *)
Abbreviation MessageType := Z (only parsing).

(** Modelled from the spec: the declaration of [dhcpv6.Message] is not in
    this file's package; the spec gives its shape ("exposes TransactionID
    (fixed-size opaque identifier) and MessageType (enumerated classifier)
    as read-only fields").  The options are kept as opaque bytes. *)
Record Message := mkMessage {
  MsgType : MessageType;
  MsgTransactionID : TransactionID;
  MsgOptions : bytes;
}.

#[global] Instance Message_eq_dec : EqDecision Message.
Proof. solve_decision. Defined.

(** [net.UDPAddr]. *)
Record UDPAddr := mkUDPAddr {
  IP : bytes;
  Port : Z;
  Zone : string;
}.

#[global] Instance UDPAddr_eq_dec : EqDecision UDPAddr.
Proof. solve_decision. Defined.

(** Go [error] values.  The four sentinels are compared by identity in the
    source; the others are built by [fmt.Errorf] or come from outside the
    package. *)
Inductive error :=
  | ErrNoResponse                        (* nclient6.ErrNoResponse *)
  | errDeadlineExceeded                  (* nclient6.errDeadlineExceeded *)
  | context_DeadlineExceeded             (* context.DeadlineExceeded *)
  | context_Canceled                     (* context.Canceled *)
  | errRequireConn                       (* "require a connection" *)
  | errInUse (xid : TransactionID)       (* "transaction ID %s already in use" *)
  | errWriting (cause : string)          (* "error writing packet to connection: %v" *)
  | errOther (text : string).            (* an error of the connection, the codec or a context *)

#[global] Instance error_eq_dec : EqDecision error.
Proof. solve_decision. Defined.

(** [err.Error()], as far as [isErrClosing] needs it. *)
Definition Error (e : error) : string :=
  match e with
  | ErrNoResponse => "no matching response packet received"
  | errDeadlineExceeded => "INTERNAL ERROR: deadline exceeded"
  | context_DeadlineExceeded => "context deadline exceeded"
  | context_Canceled => "context canceled"
  | errRequireConn => "require a connection"
  | errInUse _ => "transaction ID already in use"
  | errWriting cause => "error writing packet to connection: " ++ cause
  | errOther text => text
  end%string.

(** [strings.Contains]. *)
Fixpoint Contains (s sub : string) : bool :=
  String.prefix sub s ||
  match s with
  | EmptyString => false
  | String _ s' => Contains s' sub
  end.

Definition isErrClosing (err : error) : bool :=
  Contains (Error err) "use of closed network connection".

(** The part of the sibling package [dhcpv6] that the client calls.  Its
    code is not in this file's package: it is taken as an interface. *)
Class Dhcpv6 := {
  DefaultServerPort : Z;
  MessageTypeNone : MessageType;
  MessageTypeAdvertise : MessageType;
  Modifier : Type;
  MessageFromBytes : bytes → error + Message;
  ToBytes : Message → bytes;
  NewSolicit : bytes → list Modifier → error + Message;
  NewRequestFromAdvertise : Message → list Modifier → error + Message;
}.

(** [net.PacketConn], the socket: the three methods the client calls.
    [ReadFrom] answers [None] while no datagram and no error is available
    (the call blocks). *)
Class PacketConn (C : Type) := {
  ReadFrom : C → option (C * (error + bytes * UDPAddr));
  WriteTo : bytes → UDPAddr → C → C * option error;
  ConnClose : C → C * option error;
}.

(** ** Channels and the registry *)

Abbreviation loc := nat (only parsing).

(** A Go channel of [*dhcpv6.Message] (or of [struct{}], whose buffer stays
    empty): the queued values, the capacity and whether it was closed. *)
Record chan := mkChan {
  buf : list Message;
  cap : Z;
  is_closed : bool;
}.

(** [pendingCh]: the two ends stored for a pending TransactionID. *)
Module pendingCh.
Record t := mk {
  done : loc;      (* closed by the caller's cancel *)
  ch : loc;        (* written by the receive loop *)
}.
#[global] Instance eq_dec : EqDecision t.
Proof. solve_decision. Defined.
End pendingCh.

(** ** Programs: a state monad with blocking and panics *)

(** The result of running a goroutine's code on a state: it returned, it
    is parked at a blocking operation (and the schedule gave it no further
    chance), or it panicked. *)
Inductive outcome (S A : Type) :=
  | Ret (a : A) (s : S)
  | Parked (s : S)
  | Panic (s : S).
Arguments Ret {S A} a s.
Arguments Parked {S A} s.
Arguments Panic {S A} s.

Definition M (S A : Type) : Type := S → outcome S A.

#[global] Instance M_ret {S} : MRet (M S) := λ A a s, Ret a s.
#[global] Instance M_bind {S} : MBind (M S) := λ A B f m s,
  match m s with
  | Ret a s' => f a s'
  | Parked s' => Parked s'
  | Panic s' => Panic s'
  end.

Definition gets {S A} (f : S → A) : M S A := λ s, Ret (f s) s.
Definition modify {S} (f : S → S) : M S unit := λ s, Ret tt (f s).
Definition park {S A} : M S A := λ s, Parked s.
Definition panic {S A} : M S A := λ s, Panic s.

(** The state an outcome ends in. *)
Definition final {S A} (r : outcome S A) : S :=
  match r with Ret _ s | Parked s | Panic s => s end.

(** The value an outcome returns, if it returns. *)
Definition returned {S A} (r : outcome S A) : option A :=
  match r with Ret a _ => Some a | _ => None end.

(** ** The retry policy *)

(** The three [return] statements of [retryFn]: line 352, line 359 and
    line 363. *)
Inductive retry_exit :=
  | ExitNil
  | ExitDefault (err : error)
  | ExitExhausted.

(** The [error] value each of them returns. *)
Definition exit_err (x : retry_exit) : option error :=
  match x with
  | ExitNil => None
  | ExitDefault err => Some err
  | ExitExhausted => Some errDeadlineExceeded
  end.

Section retry.
Context {S A : Type}.
(** [c.timeout] and [c.retry], read from the state. *)
Context (c_timeout c_retry : S → Z).
(** The attempt: the closure handed to [retryFn].  Its first argument is
    the part of the environment that drives this one call of it. *)
Context (fn : A → Z → M S (option error)).

(** The loop condition of line 348; then the [for] loop of [retryFn]
    (lines 348-361), from loop variable [i]
    and the current [timeout]; one element of [envs] per call of [fn].
    When [envs] is used up and the loop would call [fn] again, the call is
    still running: [Parked]. *)
Definition attempts_remain (i : Z) (s : S) : bool :=
  (i <? c_retry s) || (c_retry s <? 0).

Fixpoint retryFn_loop (i timeout : Z) (envs : list A) : M S retry_exit :=
  λ s,
  if attempts_remain i s then
    match envs with
    | [] => Parked s
    | a :: envs' =>
        match fn a timeout s with
        | Ret None s' => Ret ExitNil s'
        | Ret (Some err) s' =>
            if decide (err = context_DeadlineExceeded)
            then retryFn_loop (wrap64 (i + 1)) (wrap64 (timeout * 2)) envs' s'
            else Ret (ExitDefault err) s'
        | Parked s' => Parked s'
        | Panic s' => Panic s'
        end
    end
  else Ret ExitExhausted s.

Definition retryFn (envs : list A) : M S retry_exit :=
  λ s, retryFn_loop 0 (c_timeout s) envs s.

(** The attempts that loop makes: the states in which the calls of [fn]
    that returned have ended, in order.  It follows [retryFn_loop] line by
    line and keeps, where the loop goes on or returns, the state [fn] left. *)
Fixpoint retryFn_states (i timeout : Z) (envs : list A) (s : S) : list S :=
  if attempts_remain i s then
    match envs with
    | [] => []
    | a :: envs' =>
        match fn a timeout s with
        | Ret None s' => [s']
        | Ret (Some err) s' =>
            s' :: (if decide (err = context_DeadlineExceeded)
                   then retryFn_states (wrap64 (i + 1)) (wrap64 (timeout * 2)) envs' s'
                   else [])
        | Parked _ | Panic _ => []
        end
    end
  else [].

End retry.

(** ** The client and the shared state *)

(** What the model records of a run (the line of [client.go] in brackets). *)
Inductive event :=
  | EvRegister (xid : TransactionID) (p : pendingCh.t)        (* [273] *)
  | EvRemove (xid : TransactionID) (p : pendingCh.t)          (* [168-169], [287-288] *)
  | EvWriteTo (b : bytes) (dest : UDPAddr) (err : option error)  (* [293] *)
  | EvTimeout (d : Z)                                         (* [321], the case taken *)
  | EvConnClose                                               (* [117] *)
  | EvCloseDone                                               (* [127] *)
  | EvLog (err : error)                                       (* [152] *)
  | EvLoopExit.                                               (* [144] *)

#[global] Instance event_eq_dec : EqDecision event.
Proof. solve_decision. Defined.

(** Where the receive loop's goroutine stands. *)
Inductive loop_pc :=
  | AtRead                                      (* [148-161] *)
  | AtLookup (msg : Message)                    (* [163-165] *)
  | AtSelect (msg : Message) (p : pendingCh.t)  (* [166-173] *)
  | AtUnlock                                    (* [175] *)
  | Exited.                                     (* returned, [154] *)

(** The cases of the [select] of [SendAndRead] (lines 317-332). *)
Inductive select_case :=
  | CaseDone        (* <-c.done *)
  | CaseTimeout     (* <-time.After(timeout) *)
  | CaseCtx         (* <-ctx.Done() *)
  | CasePacket.     (* packet := <-ch *)

(** One entry of a schedule: a step of another goroutine, or the choice
    the running goroutine's [select] makes. *)
Inductive item :=
  | Worker (prefer_done : bool)      (* the receive loop takes a step; on a
                                        tie its [select] prefers [<-p.done] or not *)
  | Closer                           (* another goroutine runs [Close] up to [wg.Wait] *)
  | CtxDone (ctx : nat) (err : error) (* the context [ctx] is done, [ctx.Err() = err] *)
  | Select (k : select_case).        (* the caller's [select] takes case [k] if it is ready *)

(** [Matcher]. *)
Abbreviation Matcher := (Message → bool) (only parsing).

Section Client.
Context {C : Type} `{!PacketConn C} `{!Dhcpv6}.

(** [Client].  [done] is the channel [c.done], of which only "closed or
    not" matters; [wg] is the counter of the [WaitGroup]; [pendingMu] tells
    whether the mutex is locked. *)
Record Client := mkClient {
  ifaceHWAddr : bytes;
  conn : option C;
  timeout : Z;
  retry : Z;
  bufferCap : Z;
  serverAddr : UDPAddr;
  closed : Z;
  done : bool;
  wg : Z;
  pendingMu : bool;
  pending : gmap TransactionID pendingCh.t;
}.

(** The client together with the Go heap it refers to (the channels made
    by [send]), the contexts that are done, the receive loop's position,
    the schedule of the running call and the trace. *)
Record World := mkWorld {
  client : Client;
  chans : gmap loc chan;
  next : loc;
  ctxs : gmap nat error;
  loop : loop_pc;
  sched : list item;
  trace : list event;
}.

Definition set_conn (x : option C) (c : Client) : Client :=
  mkClient (ifaceHWAddr c) x (timeout c) (retry c) (bufferCap c)
    (serverAddr c) (closed c) (done c) (wg c) (pendingMu c) (pending c).
Definition set_timeout (x : Z) (c : Client) : Client :=
  mkClient (ifaceHWAddr c) (conn c) x (retry c) (bufferCap c)
    (serverAddr c) (closed c) (done c) (wg c) (pendingMu c) (pending c).
Definition set_retry (x : Z) (c : Client) : Client :=
  mkClient (ifaceHWAddr c) (conn c) (timeout c) x (bufferCap c)
    (serverAddr c) (closed c) (done c) (wg c) (pendingMu c) (pending c).
Definition set_bufferCap (x : Z) (c : Client) : Client :=
  mkClient (ifaceHWAddr c) (conn c) (timeout c) (retry c) x
    (serverAddr c) (closed c) (done c) (wg c) (pendingMu c) (pending c).
Definition set_serverAddr (x : UDPAddr) (c : Client) : Client :=
  mkClient (ifaceHWAddr c) (conn c) (timeout c) (retry c) (bufferCap c)
    x (closed c) (done c) (wg c) (pendingMu c) (pending c).
Definition set_closed (x : Z) (c : Client) : Client :=
  mkClient (ifaceHWAddr c) (conn c) (timeout c) (retry c) (bufferCap c)
    (serverAddr c) x (done c) (wg c) (pendingMu c) (pending c).
Definition set_done (x : bool) (c : Client) : Client :=
  mkClient (ifaceHWAddr c) (conn c) (timeout c) (retry c) (bufferCap c)
    (serverAddr c) (closed c) x (wg c) (pendingMu c) (pending c).
Definition set_wg (x : Z) (c : Client) : Client :=
  mkClient (ifaceHWAddr c) (conn c) (timeout c) (retry c) (bufferCap c)
    (serverAddr c) (closed c) (done c) x (pendingMu c) (pending c).
Definition set_pendingMu (x : bool) (c : Client) : Client :=
  mkClient (ifaceHWAddr c) (conn c) (timeout c) (retry c) (bufferCap c)
    (serverAddr c) (closed c) (done c) (wg c) x (pending c).
Definition set_pending (x : gmap TransactionID pendingCh.t) (c : Client) : Client :=
  mkClient (ifaceHWAddr c) (conn c) (timeout c) (retry c) (bufferCap c)
    (serverAddr c) (closed c) (done c) (wg c) (pendingMu c) x.

Definition on_client (f : Client → Client) (w : World) : World :=
  mkWorld (f (client w)) (chans w) (next w) (ctxs w) (loop w) (sched w) (trace w).
Definition set_chans (x : gmap loc chan) (w : World) : World :=
  mkWorld (client w) x (next w) (ctxs w) (loop w) (sched w) (trace w).
Definition set_next (x : loc) (w : World) : World :=
  mkWorld (client w) (chans w) x (ctxs w) (loop w) (sched w) (trace w).
Definition set_ctxs (x : gmap nat error) (w : World) : World :=
  mkWorld (client w) (chans w) (next w) x (loop w) (sched w) (trace w).
Definition set_loop (x : loop_pc) (w : World) : World :=
  mkWorld (client w) (chans w) (next w) (ctxs w) x (sched w) (trace w).
Definition set_sched (x : list item) (w : World) : World :=
  mkWorld (client w) (chans w) (next w) (ctxs w) (loop w) x (trace w).
Definition log (e : event) (w : World) : World :=
  mkWorld (client w) (chans w) (next w) (ctxs w) (loop w) (sched w) (trace w ++ [e]).

(** *** Primitive operations *)

(** [make(chan T, n)]: panics on a negative size. *)
Definition make_chan (n : Z) : M World loc := λ w,
  if n <? 0 then Panic w
  else Ret (next w) (set_next (Datatypes.S (next w))
                       (set_chans (<[next w := mkChan [] n false]> (chans w)) w)).

(** [close(l)]: panics on a nil or an already closed channel. *)
Definition close_chan (l : loc) : M World unit := λ w,
  match chans w !! l with
  | Some c =>
      if is_closed c then Panic w
      else Ret tt (set_chans (<[l := mkChan (buf c) (cap c) true]> (chans w)) w)
  | None => Panic w
  end.

(** Whether [<-l] can proceed on a channel of [struct{}]: it is closed. *)
Definition closed_chan (l : loc) (w : World) : bool :=
  match chans w !! l with
  | Some c => is_closed c
  | None => false
  end.

(** One attempt of [pendingMu.Lock()]: parks while the mutex is locked. *)
Definition mu_acquire : M World unit := λ w,
  if pendingMu (client w) then Parked w
  else Ret tt (on_client (set_pendingMu true) w).

(** [pendingMu.Unlock()]: a fatal error on an unlocked mutex. *)
Definition mu_release : M World unit := λ w,
  if pendingMu (client w) then Ret tt (on_client (set_pendingMu false) w)
  else Panic w.

(** [c.conn.ReadFrom(b)] with [b] of 1500 bytes: a nil connection panics;
    at most [len(b)] bytes are copied. *)
Definition conn_ReadFrom : M World (error + bytes) := λ w,
  match conn (client w) with
  | None => Panic w
  | Some k =>
      match ReadFrom k with
      | None => Parked w
      | Some (k', inl err) => Ret (inl err) (on_client (set_conn (Some k')) w)
      | Some (k', inr (b, _)) =>
          Ret (inr (take 1500 b)) (on_client (set_conn (Some k')) w)
      end
  end.

(** [c.conn.WriteTo(b, dest)]. *)
Definition conn_WriteTo (b : bytes) (dest : UDPAddr) : M World (option error) := λ w,
  match conn (client w) with
  | None => Panic w
  | Some k =>
      let '(k', err) := WriteTo b dest k in
      Ret err (log (EvWriteTo b dest err) (on_client (set_conn (Some k')) w))
  end.

(** [c.conn.Close()]. *)
Definition conn_Close : M World (option error) := λ w,
  match conn (client w) with
  | None => Panic w
  | Some k =>
      let '(k', err) := ConnClose k in
      Ret err (log EvConnClose (on_client (set_conn (Some k')) w))
  end.

(** [close(c.done)]: panics when already closed. *)
Definition close_done : M World unit := λ w,
  if done (client w) then Panic w
  else Ret tt (log EvCloseDone (on_client (set_done true) w)).

(** [atomic.CompareAndSwapUint32(&c.closed, old, new)]. *)
Definition CompareAndSwap_closed (old new : Z) : M World bool := λ w,
  if closed (client w) =? old
  then Ret true (on_client (set_closed new) w)
  else Ret false w.

(** [c.wg.Done()]: panics on a negative counter. *)
Definition wg_Done : M World unit := λ w,
  if wg (client w) - 1 <? 0 then Panic w
  else Ret tt (on_client (set_wg (wg (client w) - 1)) w).

(** A goroutine is blocked in a receive on [l]: [recv] is the channel the
    running caller's [select] waits on (line 327), and a receiver that
    waits has found the queue empty. *)
Definition receiver_waits (recv : option loc) (l : loc) (c : chan) : bool :=
  bool_decide (recv = Some l)
  && match buf c with [] => true | _ :: _ => false end.

(** [l <- m]: panics on a closed channel; proceeds when the buffer has
    room, or when a receiver is blocked on the channel, which is then
    handed the message (an unbuffered channel, of capacity 0, passes
    messages in this way only); parks otherwise (a nil channel parks for
    ever).  A message handed over stands in the queue, beyond its
    capacity, until the receiver has taken it. *)
Definition chan_send (recv : option loc) (l : loc) (m : Message)
    : M World unit := λ w,
  match chans w !! l with
  | Some c =>
      if is_closed c then Panic w
      else if (Z.of_nat (length (buf c)) <? cap c) || receiver_waits recv l c
      then Ret tt (set_chans (<[l := mkChan (buf c ++ [m]) (cap c) false]> (chans w)) w)
      else Parked w
  | None => Parked w
  end.

(** Whether [l <- m] can proceed (a send on a closed channel proceeds, by
    panicking). *)
Definition send_ready (recv : option loc) (l : loc) (w : World) : bool :=
  match chans w !! l with
  | Some c =>
      is_closed c || (Z.of_nat (length (buf c)) <? cap c) || receiver_waits recv l c
  | None => false
  end.

(** A message was handed to the receiver blocked on [l]: the queue holds
    more than its capacity. *)
Definition handed (l : loc) (w : World) : bool :=
  match chans w !! l with
  | Some c => cap c <? Z.of_nat (length (buf c))
  | None => false
  end.

(** [<-l]: the oldest message of the queue, which is one a sender has
    handed over when the channel has no buffer; [nil] ([None]) from a
    closed and drained channel; parks on an open empty one (a sender
    that finds this receiver waiting hands its message over in its own
    step, [chan_send]). *)
Definition chan_recv (l : loc) : M World (option Message) := λ w,
  match chans w !! l with
  | Some c =>
      match buf c with
      | m :: rest =>
          Ret (Some m) (set_chans (<[l := mkChan rest (cap c) (is_closed c)]> (chans w)) w)
      | [] => if is_closed c then Ret None w else Parked w
      end
  | None => Parked w
  end.

(** *** The receive loop (lines 141-178) *)

(** [close(p.ch); delete(c.pending, xid)]. *)
Definition remove_pending (xid : TransactionID) (p : pendingCh.t) : M World unit :=
  close_chan (pendingCh.ch p);;
  modify (on_client (λ c, set_pending (delete xid (pending c)) c));;
  modify (log (EvRemove xid p)).

(** The [select] of lines 166-173.  When both cases can proceed Go picks
    one at random: [prefer_done] is that pick.  [recv] is the channel a
    caller is blocked receiving on, if any. *)
Definition loop_select (recv : option loc) (prefer_done : bool) (msg : Message)
    (p : pendingCh.t) : M World unit := λ w,
  if closed_chan (pendingCh.done p) w
     && (prefer_done || negb (send_ready recv (pendingCh.ch p) w))
  then remove_pending (MsgTransactionID msg) p w
  else chan_send recv (pendingCh.ch p) msg w.

(** One step of the receive loop's goroutine, from where it stands.  It
    parks when the step cannot proceed now. *)
Definition receiveLoop_step (recv : option loc) (prefer_done : bool)
    : M World unit := λ w,
  match loop w with
  | AtRead =>
      (r ← conn_ReadFrom;
       match r with
       | inl err =>
           (if isErrClosing err then mret tt else modify (log (EvLog err)));;
           wg_Done;;
           modify (log EvLoopExit);;
           modify (set_loop Exited)
       | inr b =>
           match MessageFromBytes b with
           | inl _ => mret tt
           | inr msg => modify (set_loop (AtLookup msg))
           end
       end) w
  | AtLookup msg =>
      (mu_acquire;;
       p ← gets (λ w, pending (client w) !! MsgTransactionID msg);
       match p with
       | Some p => modify (set_loop (AtSelect msg p))
       | None => modify (set_loop AtUnlock)
       end) w
  | AtSelect msg p =>
      (loop_select recv prefer_done msg p;; modify (set_loop AtUnlock)) w
  | AtUnlock =>
      (mu_release;; modify (set_loop AtRead)) w
  | Exited => Parked w
  end.

(** *** Close (lines 111-133) *)

(** [Close] up to and without [c.wg.Wait()]: [None] when the
    compare-and-swap failed, else the error of [c.conn.Close()]. *)
Definition Close_begin : M World (option (option error)) :=
  swapped ← CompareAndSwap_closed 0 1;
  if negb swapped then mret None
  else
    err ← conn_Close;
    close_done;;
    mret (Some err).

(** *** Schedules *)

(** What an entry of the schedule does to the shared state while the
    running goroutine is blocked, in a receive on [recv] if that is a
    channel. *)
Definition env_step (recv : option loc) (it : item) (w : World) : World :=
  match it with
  | Worker prefer_done => final (receiveLoop_step recv prefer_done w)
  | Closer => final (Close_begin w)
  | CtxDone ctx err =>
      match ctxs w !! ctx with
      | Some _ => w
      | None => set_ctxs (<[ctx := err]> (ctxs w)) w
      end
  | Select _ => w
  end.

(** Run a parking operation [m]: while it parks, let the schedule's next
    entry act and try again. *)
Fixpoint await_from {A} (m : M World A) (s : list item) (w : World)
    : outcome World A :=
  match m w with
  | Ret a w' => Ret a (set_sched s w')
  | Panic w' => Panic (set_sched s w')
  | Parked w' =>
      match s with
      | [] => Parked (set_sched [] w')
      | it :: s' => await_from m s' (env_step None it w')
      end
  end.

Definition await {A} (m : M World A) : M World A :=
  λ w, await_from m (sched w) w.

(** [c.pendingMu.Lock()] and [c.pendingMu.Unlock()] of a caller. *)
Definition Lock : M World unit := await mu_acquire.
Definition Unlock : M World unit := mu_release.

(** [c.wg.Wait()]. *)
Definition wg_Wait : M World unit :=
  await (λ w, if wg (client w) =? 0 then Ret tt w else Parked w).

(** [Close]; [script] schedules the other goroutines while it waits. *)
Definition Close (script : list item) : M World (option error) :=
  r ← Close_begin;
  match r with
  | None => mret None
  | Some err => modify (set_sched script);; wg_Wait;; mret err
  end.

(** *** send and its cancel function (lines 264-298) *)

(** The function [send] returns as [cancel]; it captured [done] and
    [msg.TransactionID]. *)
Definition cancel (xid : TransactionID) (done : loc) : M World unit :=
  close_chan done;;
  Lock;;
  p ← gets (λ w, pending (client w) !! xid);
  match p with
  | Some p => remove_pending xid p
  | None => mret tt
  end;;
  Unlock.

Definition send (dest : UDPAddr) (msg : Message)
    : M World (error + loc * (TransactionID * loc)) :=
  let xid := MsgTransactionID msg in
  Lock;;
  p ← gets (λ w, pending (client w) !! xid);
  match p with
  | Some _ => Unlock;; mret (inl (errInUse xid))
  | None =>
      n ← gets (λ w, bufferCap (client w));
      ch ← make_chan n;
      done ← make_chan 0;
      let p := pendingCh.mk done ch in
      modify (on_client (λ c, set_pending (<[xid := p]> (pending c)) c));;
      modify (log (EvRegister xid p));;
      Unlock;;
      err ← conn_WriteTo (ToBytes msg) dest;
      match err with
      | Some e => cancel xid done;; mret (inl (errWriting (Error e)))
      | None => mret (inr (ch, (xid, done)))
      end
  end.

(** *** SendAndRead (lines 307-342) *)

(** What the closure does with the outcome [r] of [<-ch] (lines 327-331):
    a packet the matcher refuses sends it round the loop again, [again];
    so does a receive that could not proceed.  A matcher is taken to
    dereference its argument, as [IsMessageType] does: a nil packet panics
    in it. *)
Definition received (match_ : option Matcher) (s' : list item)
    (again : World → outcome World (error + option Message))
    (r : outcome World (option Message)) (w : World)
    : outcome World (error + option Message) :=
  match r with
  | Ret packet w' =>
      match match_, packet with
      | None, _ => Ret (inr packet) (set_sched s' w')
      | Some f, Some m =>
          if f m then Ret (inr packet) (set_sched s' w') else again w'
      | Some _, None => Panic (set_sched s' w')
      end
  | _ => again w
  end.

(** The [for { select { ... } }] of lines 316-333, run along the schedule
    [s].  It answers the error the closure returns, or the packet it stores
    in [response] before returning [nil].  A [Select] entry whose case is
    not ready is passed over; every iteration makes a new timer, whose case
    can be taken at any time (the time has then elapsed).  While the
    other goroutines act the caller is blocked in its receive on [ch]: when
    the receive loop's send hands it a message, its [select] has taken the
    packet case. *)
Fixpoint wait_from (ctx : nat) (match_ : option Matcher) (ch : loc)
    (timeout : Z) (s : list item) (w : World)
    : outcome World (error + option Message) :=
  match s with
  | [] => Parked (set_sched [] w)
  | Select CaseDone :: s' =>
      if done (client w) then Ret (inl ErrNoResponse) (set_sched s' w)
      else wait_from ctx match_ ch timeout s' w
  | Select CaseTimeout :: s' =>
      Ret (inl errDeadlineExceeded) (log (EvTimeout timeout) (set_sched s' w))
  | Select CaseCtx :: s' =>
      match ctxs w !! ctx with
      | Some err => Ret (inl err) (set_sched s' w)
      | None => wait_from ctx match_ ch timeout s' w
      end
  | Select CasePacket :: s' =>
      received match_ s' (wait_from ctx match_ ch timeout s') (chan_recv ch w) w
  | it :: s' =>
      let w1 := env_step (Some ch) it w in
      if handed ch w1
      then received match_ s' (wait_from ctx match_ ch timeout s')
             (chan_recv ch w1) w1
      else wait_from ctx match_ ch timeout s' w1
  end.

Definition wait (ctx : nat) (match_ : option Matcher) (ch : loc) (timeout : Z)
    : M World (error + option Message) :=
  λ w, wait_from ctx match_ ch timeout (sched w) w.

(** The body of the closure of lines 309-334, on the shared state. *)
Definition attempt_body (ctx : nat) (dest : UDPAddr) (msg : Message)
    (match_ : option Matcher) (timeout : Z)
    : M World (error + option Message) :=
  r ← send dest msg;
  match r with
  | inl err => mret (inl err)
  | inr (ch, (xid, done)) =>
      res ← wait ctx match_ ch timeout;
      cancel xid done;;        (* defer rem() *)
      mret res
  end.

(** The closure: its state is the captured variable [response] and the
    shared state; [script] schedules this call of it. *)
Definition attempt (ctx : nat) (dest : UDPAddr) (msg : Message)
    (match_ : option Matcher) (script : list item) (timeout : Z)
    : M (option Message * World) (option error) :=
  λ '(response, w),
  match attempt_body ctx dest msg match_ timeout (set_sched script w) with
  | Ret (inl err) w' => Ret (Some err) (response, w')
  | Ret (inr packet) w' => Ret None (packet, w')
  | Parked w' => Parked (response, w')
  | Panic w' => Panic (response, w')
  end.

(** [c.retryFn] of the closure. *)
Definition retry_attempts (ctx : nat) (dest : UDPAddr) (msg : Message)
    (match_ : option Matcher) (scripts : list (list item))
    : M (option Message * World) retry_exit :=
  retryFn (λ s, timeout (client s.2)) (λ s, retry (client s.2))
    (attempt ctx dest msg match_) scripts.

Definition SendAndRead (ctx : nat) (dest : UDPAddr) (msg : Message)
    (match_ : option Matcher) (scripts : list (list item))
    : M World (option Message * option error) :=
  λ w,
  match retry_attempts ctx dest msg match_ scripts (None, w) with
  | Ret x (response, w') =>
      match exit_err x with
      | Some err =>
          if decide (err = errDeadlineExceeded)
          then Ret (None, Some ErrNoResponse) w'
          else Ret (None, Some err) w'
      | None => Ret (response, None) w'
      end
  | Parked (_, w') => Parked w'
  | Panic (_, w') => Panic w'
  end.

(** [SendAndRead] taken up at the head of the loop of [retryFn]: the call
    is in iteration [i] of it, with the attempt's timeout at [timeout] and
    the closure's variable at [response]; lines 335-341 follow as in
    [SendAndRead], which is this from iteration 0. *)
Definition SendAndRead_from (i timeout : Z) (response : option Message)
    (ctx : nat) (dest : UDPAddr) (msg : Message)
    (match_ : option Matcher) (scripts : list (list item))
    : M World (option Message * option error) :=
  λ w,
  match retryFn_loop (λ s, retry (client s.2)) (attempt ctx dest msg match_)
          i timeout scripts (response, w) with
  | Ret x (response, w') =>
      match exit_err x with
      | Some err =>
          if decide (err = errDeadlineExceeded)
          then Ret (None, Some ErrNoResponse) w'
          else Ret (None, Some err) w'
      | None => Ret (response, None) w'
      end
  | Parked (_, w') => Parked w'
  | Panic (_, w') => Panic w'
  end.

(** The shared state at the end of each attempt of a call that
    returned. *)
Definition attempt_states (ctx : nat) (dest : UDPAddr) (msg : Message)
    (match_ : option Matcher) (scripts : list (list item)) (w : World)
    : list World :=
  map snd
    (retryFn_states (λ s, retry (client s.2)) (attempt ctx dest msg match_)
       0 (timeout (client w)) scripts (None, w)).

(** *** The public calls (lines 21-31, 221-256) *)

(** [net.ParseIP("ff02::1:2")] and [net.ParseIP("ff05::1:3")]. *)
Definition ip_ff02_1_2 : bytes :=
  [xff; x02; x00; x00; x00; x00; x00; x00; x00; x00; x00; x00; x00; x01; x00; x02]%byte.
Definition ip_ff05_1_3 : bytes :=
  [xff; x05; x00; x00; x00; x00; x00; x00; x00; x00; x00; x00; x00; x01; x00; x03]%byte.

Definition AllDHCPRelayAgentsAndServers : UDPAddr :=
  mkUDPAddr ip_ff02_1_2 DefaultServerPort "".
Definition AllDHCPServers : UDPAddr :=
  mkUDPAddr ip_ff05_1_3 DefaultServerPort "".

Definition IsMessageType (t : MessageType) : Matcher :=
  λ p, (MsgType p =? t) || (t =? MessageTypeNone).

(** [Solicit] answers [(msg, nil, err)]. *)
Definition Solicit (ctx : nat) (modifiers : list Modifier)
    (scripts : list (list item))
    : M World (option Message * option UDPAddr * option error) :=
  c ← gets client;
  match NewSolicit (ifaceHWAddr c) modifiers with
  | inl err => mret (None, None, Some err)
  | inr solicit =>
      '(msg, err) ← SendAndRead ctx AllDHCPServers solicit
                      (Some (IsMessageType MessageTypeAdvertise)) scripts;
      match err with
      | Some err => mret (None, None, Some err)
      | None => mret (msg, None, None)
      end
  end.

Definition Request (ctx : nat) (advertise : Message) (modifiers : list Modifier)
    (scripts : list (list item))
    : M World (option Message * option error) :=
  match NewRequestFromAdvertise advertise modifiers with
  | inl err => mret (None, Some err)
  | inr request => SendAndRead ctx AllDHCPServers request None scripts
  end.

(** *** Construction (lines 84-108, 180-219) *)

Definition ClientOpt : Type := Client → Client.

Definition withBufferCap (n : Z) : ClientOpt := set_bufferCap n.
Definition WithTimeout (d : Z) : ClientOpt := set_timeout d.
Definition WithRetry (r : Z) : ClientOpt := set_retry r.
Definition WithConn (k : C) : ClientOpt := set_conn (Some k).
Definition WithBroadcastAddr (n : UDPAddr) : ClientOpt := set_serverAddr n.

(** [time.Second], in nanoseconds. *)
Definition Second : Z := 1000000000.

(** [New]: the client after the options, or the error; [receiveLoop()]
    adds one to [wg] and starts the goroutine at its first read. *)
Definition New (hw : bytes) (opts : list ClientOpt) : error + World :=
  let c0 := mkClient hw None (5 * Second) 3 5 AllDHCPServers 0 false 0 false ∅ in
  let c := foldl (λ c opt, opt c) c0 opts in
  match conn c with
  | None => inl errRequireConn
  | Some _ => inr (mkWorld (set_wg (wg c + 1) c) ∅ 0%nat ∅ AtRead [] [])
  end.

End Client.

(** ** A socket and a codec to run the client on *)

(** A socket in memory: the datagrams (or read errors) still to arrive
    and the datagrams written.  Once closed, every method fails the way
    [net.UDPConn] does. *)
Record MockConn := mkMockConn {
  inbox : list (error + bytes * UDPAddr);
  outbox : list (bytes * UDPAddr);
  conn_closed : bool;
}.

Definition errClosed : error := errOther "use of closed network connection".

#[global] Instance MockConn_PacketConn : PacketConn MockConn := {|
  ReadFrom k :=
    if conn_closed k then Some (k, inl errClosed)
    else match inbox k with
         | [] => None
         | r :: rest => Some (mkMockConn rest (outbox k) false, r)
         end;
  WriteTo b dest k :=
    if conn_closed k then (k, Some errClosed)
    else (mkMockConn (inbox k) (outbox k ++ [(b, dest)]) false, None);
  ConnClose k :=
    if conn_closed k then (k, Some errClosed)
    else (mkMockConn (inbox k) (outbox k) true, None);
|}.

Definition byte_of_Z (z : Z) : Byte.byte := default Byte.x00 (Byte.of_N (Z.to_N z)).
Definition Z_of_byte (b : Byte.byte) : Z := Z.of_N (Byte.to_N b).

(** A codec with a four-byte header (message type, transaction id) and
    fixed transaction ids for the two builders; the port is the one of RFC
    3315 and the message types are its SOLICIT (1), ADVERTISE (2) and
    REQUEST (3). *)
#[global] Instance Mock_Dhcpv6 : Dhcpv6 := {|
  DefaultServerPort := 547;
  MessageTypeNone := 0;
  MessageTypeAdvertise := 2;
  Modifier := Message → Message;
  MessageFromBytes b :=
    match b with
    | t :: x1 :: x2 :: x3 :: opts => inr (mkMessage (Z_of_byte t) (x1, x2, x3) opts)
    | _ => inl (errOther "short packet")
    end;
  ToBytes m :=
    let '(x1, x2, x3) := MsgTransactionID m in
    byte_of_Z (MsgType m) :: x1 :: x2 :: x3 :: MsgOptions m;
  NewSolicit hw modifiers :=
    inr (foldl (λ m f, f m) (mkMessage 1 (Byte.x0a, Byte.x0b, Byte.x0c) hw) modifiers);
  NewRequestFromAdvertise adv modifiers :=
    inr (foldl (λ m f, f m) (mkMessage 3 (MsgTransactionID adv) (MsgOptions adv)) modifiers);
|}.

(** ** What a run shows *)

(** The registrations made (line 273), in order. *)
Fixpoint registrations (t : list event) : list (TransactionID * pendingCh.t) :=
  match t with
  | [] => []
  | EvRegister xid p :: t' => (xid, p) :: registrations t'
  | _ :: t' => registrations t'
  end.

(** The datagrams handed to [WriteTo] (line 293), in order. *)
Fixpoint writes (t : list event) : list (bytes * UDPAddr) :=
  match t with
  | [] => []
  | EvWriteTo b dest _ :: t' => (b, dest) :: writes t'
  | _ :: t' => writes t'
  end.

(** The durations of the timers that ended an attempt (line 321). *)
Fixpoint timeouts (t : list event) : list Z :=
  match t with
  | [] => []
  | EvTimeout d :: t' => d :: timeouts t'
  | _ :: t' => timeouts t'
  end.

(** What callers do, in order: a registration (line 273) or a datagram
    handed to [WriteTo] (line 293). *)
Inductive call_event :=
  | Registered (xid : TransactionID) (p : pendingCh.t)
  | Written (b : bytes) (dest : UDPAddr).

Fixpoint call_events (t : list event) : list call_event :=
  match t with
  | [] => []
  | EvRegister xid p :: t' => Registered xid p :: call_events t'
  | EvWriteTo b dest _ :: t' => Written b dest :: call_events t'
  | _ :: t' => call_events t'
  end.

(** The retry policy as a pure function: [c.timeout], [c.retry] and the
    outcome of each attempt in; the exit and the timeouts the attempts were
    called with out. *)
Definition retry_policy (base retries : Z) (outcomes : list (option error))
    : outcome (list Z) retry_exit :=
  retryFn (λ _, base) (λ _, retries) (λ o t s, Ret o (s ++ [t])) outcomes [].

(** The registrations of [k] successive attempts under [xid] starting at
    heap position [n]: each makes its channel [ch] and then [done]. *)
Fixpoint fresh_registrations (xid : TransactionID) (n : nat) (k : nat)
    : list (TransactionID * pendingCh.t) :=
  match k with
  | O => []
  | Datatypes.S k' =>
      (xid, pendingCh.mk (Datatypes.S n) n)
        :: fresh_registrations xid (Datatypes.S (Datatypes.S n)) k'
  end.

Section Invariants.
Context {C : Type} `{!PacketConn C} `{!Dhcpv6}.
Implicit Types w : @World C.

(** [w'] comes from [w] by steps that only add to the trace, register
    nothing, write nothing to the socket, make no channel, keep the socket
    present, add nothing to the registry, leave the configuration alone
    and do not undo a shutdown. *)
Definition quiet w w' : Prop :=
  trace w `prefix_of` trace w'
  ∧ registrations (trace w') = registrations (trace w)
  ∧ writes (trace w') = writes (trace w)
  ∧ next w' = next w
  ∧ (is_Some (conn (client w)) → is_Some (conn (client w')))
  ∧ (∀ xid, pending (client w) !! xid = None → pending (client w') !! xid = None)
  ∧ retry (client w') = retry (client w)
  ∧ timeout (client w') = timeout (client w)
  ∧ bufferCap (client w') = bufferCap (client w)
  ∧ (closed (client w) ≠ 0 → closed (client w') = closed (client w))
  ∧ (done (client w) = true → done (client w') = true).

(** An operation all of whose runs are quiet. *)
Definition quiet_op {A} (m : M (@World C) A) : Prop :=
  ∀ w, quiet w (final (m w)).

(** [w'] comes from [w] by [kr] registrations under [xid], each with two
    channels made for it, and [kw] writes of the datagram [b] to [dest]. *)
Definition attempted (xid : TransactionID) (b : bytes) (dest : UDPAddr)
    (kr kw : nat) w w' : Prop :=
  registrations (trace w')
    = registrations (trace w) ++ fresh_registrations xid (next w) kr
  ∧ writes (trace w') = writes (trace w) ++ replicate kw (b, dest)
  ∧ next w' = (next w + 2 * kr)%nat
  ∧ (is_Some (conn (client w)) → is_Some (conn (client w')))
  ∧ (kw ≤ kr)%nat
  ∧ (is_Some (conn (client w)) → kw = kr).

(** The state after lines 271-274 of [send] ran on [w] (which holds the
    mutex): the two channels are made, the entry is stored, the mutex is
    released. *)
Definition registered (xid : TransactionID) w : World :=
  let p := pendingCh.mk (Datatypes.S (next w)) (next w) in
  on_client (set_pendingMu false)
    (log (EvRegister xid p)
       (on_client (λ c, set_pending (<[xid := p]> (pending c)) c)
          (set_next (Datatypes.S (Datatypes.S (next w)))
             (set_chans
                (<[Datatypes.S (next w) := mkChan [] 0 false]>
                   (<[next w := mkChan [] (bufferCap (client w)) false]> (chans w)))
                w)))).

(** The claim that a call registers its TransactionID once: the run from
    [w] to [w'] added one registration. *)
Definition registers_once (xid : TransactionID) w w' : Prop :=
  ∃ p, registrations (trace w') = registrations (trace w) ++ [(xid, p)].

(** One attempt under [xid] took the state from [w] to [w']: of what
    callers do it added a registration of [xid] with two channels made for
    it and then a write of the datagram [b] to [dest], and nothing else;
    at its end [xid] is registered no more. *)
Definition one_attempt (xid : TransactionID) (b : bytes) (dest : UDPAddr)
    w w' : Prop :=
  ∃ tr, trace w' = trace w ++ tr
    ∧ call_events tr
      = [Registered xid (pendingCh.mk (Datatypes.S (next w)) (next w));
         Written b dest]
    ∧ next w' = Datatypes.S (Datatypes.S (next w))
    ∧ pending (client w') !! xid = None.

(** Each state of [ws] comes from the one before it, the first from [w],
    by [R]. *)
Fixpoint each_attempt (R : World → World → Prop) w (ws : list World) : Prop :=
  match ws with
  | [] => True
  | w' :: ws' => R w w' ∧ each_attempt R w' ws'
  end.

(** A call under [xid] that starts in [w] gets to its first write: the id
    and the mutex are free, the queue size is one [make] accepts, there is
    a socket, and the retry count lets an attempt run. *)
Definition can_start (xid : TransactionID) w : Prop :=
  pending (client w) !! xid = None
  ∧ pendingMu (client w) = false
  ∧ 0 ≤ bufferCap (client w)
  ∧ is_Some (conn (client w))
  ∧ retry (client w) ≠ 0.

(** The [WaitGroup] counts the receive loop: 1 while it runs, 0 once it
    has returned. *)
Definition loop_counted w : Prop :=
  (wg (client w) = 1 ∧ loop w ≠ Exited) ∨ (wg (client w) = 0 ∧ loop w = Exited).

(** The receive loop is blocked: its next step cannot proceed, whatever
    its [select] would prefer and whichever channel a caller waits on. *)
Definition loop_blocked w : Prop :=
  ∀ recv prefer_done, receiveLoop_step recv prefer_done w = Parked w.

(** The registry refers to channels that exist, and no two entries share a
    delivery queue. *)
Definition registry_wf w : Prop :=
  map_Forall (λ x p,
    (pendingCh.ch p < next w)%nat ∧ (pendingCh.done p < next w)%nat
    ∧ pendingCh.ch p ≠ pendingCh.done p
    ∧ map_Forall (λ y q,
        x ≠ y → pendingCh.ch p ≠ pendingCh.ch q ∧ pendingCh.ch p ≠ pendingCh.done q)
        (pending (client w)))
    (pending (client w)).

#[global] Instance registry_wf_dec w : Decision (registry_wf w).
Proof. unfold registry_wf. apply _. Defined.

(** The claim that the receive loop never keeps the mutex while its
    enqueue is blocked. *)
Definition lock_free_while_blocked w : Prop :=
  ∀ msg p, loop w = AtSelect msg p → loop_blocked w → pendingMu (client w) = false.

(** The buffer of the delivery queue at [l]. *)
Definition queue w (l : loc) : option (list Message) := buf <$> chans w !! l.

End Invariants.

(** ** Worlds to run *)

Definition hw0 : bytes := [x02; x00; x00; x00; x00; x01]%byte.
Definition conn0 : MockConn := mkMockConn [] [] false.

(** The client of [New(hw0, WithConn(conn0))]: the defaults. *)
Definition client0 : @Client MockConn :=
  mkClient hw0 (Some conn0) (5 * Second) 3 5 AllDHCPServers 0 false 1 false ∅.
Definition world0 : @World MockConn := mkWorld client0 ∅ 0%nat ∅ AtRead [] [].

Definition xid1 : TransactionID := (x01, x02, x03)%byte.
Definition xid2 : TransactionID := (x04, x05, x06)%byte.
Definition solicit1 : Message := mkMessage 1 xid1 [].
Definition advertise1 : Message := mkMessage 2 xid1 [x2a]%byte.
Definition advertise2 : Message := mkMessage 2 xid2 [x2b]%byte.
Definition server1 : UDPAddr := mkUDPAddr [xfe; x80]%byte 547 "eth0".


(** [xid1] is pending: [send] of [solicit1] has run. *)
Definition world_pending1 : @World MockConn :=
  final (send AllDHCPServers solicit1 world0).

(** [n] steps of the receive loop, no caller waiting in a receive. *)
Definition run_loop {C} `{!PacketConn C} `{!Dhcpv6} (prefer_done : bool) (n : nat)
    (w : @World C) : @World C :=
  Nat.iter n (λ w, final (receiveLoop_step None prefer_done w)) w.

Definition solicit2 : Message := mkMessage 1 xid2 [].

(** A socket on which two copies of [advertise1] arrive, and a client
    with delivery queues of capacity 1 on it. *)
Definition conn_adv : MockConn :=
  mkMockConn [inr (ToBytes advertise1, server1); inr (ToBytes advertise1, server1)]
    [] false.
Definition world_cap1 : @World MockConn :=
  mkWorld (mkClient hw0 (Some conn_adv) (5 * Second) 3 1 AllDHCPServers
             0 false 1 false ∅) ∅ 0%nat ∅ AtRead [] [].

(** [xid1] and [xid2] are pending and the loop has read the first
    [advertise1]: it is about to look its id up. *)
Definition world_two : @World MockConn :=
  run_loop true 1
    (final (send AllDHCPServers solicit2
       (final (send AllDHCPServers solicit1 world_cap1)))).

(** [xid1] is pending, its queue holds the first [advertise1] and the loop
    stands at its [select] with the second one. *)
Definition world_full : @World MockConn :=
  run_loop true 6 (final (send AllDHCPServers solicit1 world_cap1)).

(** The default client with two retries and a base timeout of a second. *)
Definition world_retry2 : @World MockConn :=
  on_client (WithTimeout Second) (on_client (WithRetry 2) world0).

(** No response ever arrives: every attempt's [select] ends in its timer. *)
Definition silence : list (list item) :=
  [[Select CaseTimeout]; [Select CaseTimeout]; [Select CaseTimeout];
   [Select CaseTimeout]].

Definition run_silence : outcome (@World MockConn) (option Message * option error) :=
  SendAndRead 0%nat AllDHCPServers solicit1 None silence world_retry2.

Definition run_silence_retry0 : outcome (@World MockConn) (option Message * option error) :=
  SendAndRead 0%nat AllDHCPServers solicit1 None silence
    (on_client (WithRetry 0) world0).

(** The caller's context 7 reaches its deadline while the first attempt
    waits; the default client (three retries). *)
Definition run_ctx_deadline : outcome (@World MockConn) (option Message * option error) :=
  SendAndRead 7%nat AllDHCPServers solicit1 None
    [[CtxDone 7%nat context_DeadlineExceeded; Select CaseCtx];
     [Select CaseCtx]; [Select CaseCtx]; [Select CaseCtx]]
    world0.

(** The caller cancels context 7 while the first attempt waits. *)
Definition run_ctx_cancel : outcome (@World MockConn) (option Message * option error) :=
  SendAndRead 7%nat AllDHCPServers solicit1 None
    [[CtxDone 7%nat context_Canceled; Select CaseCtx];
     [Select CaseCtx]; [Select CaseCtx]; [Select CaseCtx]]
    world0.

(** While the first attempt waits, another goroutine calls [Close] and
    the caller cancels context 7; the [select] takes the context's case. *)
Definition run_shutdown_cancel : outcome (@World MockConn) (option Message * option error) :=
  SendAndRead 7%nat AllDHCPServers solicit1 None
    [[Closer; CtxDone 7%nat context_Canceled; Select CaseCtx]]
    world0.

(** The client after [Close] returned. *)
Definition world_closed : @World MockConn := final (Close [Worker true] world0).

(** A call started after [Close]. *)
Definition run_after_close : outcome (@World MockConn) (option Message * option error) :=
  SendAndRead 0%nat AllDHCPServers solicit1 None [[Select CaseDone]] world_closed.

(** A client whose [serverAddr] is [server1]. *)
Definition world_server1 : @World MockConn :=
  on_client (WithBroadcastAddr server1) world0.

(** The timeout the closure is called with at its [j]-th call (from 0):
    [c.timeout] doubled [j] times in [int64] (line 356). *)
Fixpoint doubled (base : Z) (j : nat) : Z :=
  match j with
  | O => base
  | Datatypes.S j' => wrap64 (doubled base j' * 2)
  end.

(** A client on a socket that is closed already: every write fails. *)
Definition conn_dead : MockConn := mkMockConn [] [] true.
Definition world_dead : @World MockConn :=
  mkWorld (mkClient hw0 (Some conn_dead) (5 * Second) 3 5 AllDHCPServers
             0 false 1 false ∅) ∅ 0%nat ∅ AtRead [] [].

(** A client like [world_cap1] with unbuffered delivery queues. *)
Definition world_cap0 : @World MockConn :=
  mkWorld (mkClient hw0 (Some conn_adv) (5 * Second) 3 0 AllDHCPServers
             0 false 1 false ∅) ∅ 0%nat ∅ AtRead [] [].

(** A REPLY (7) to [solicit1], and the default client on a socket where
    it arrives. *)
Definition reply1 : Message := mkMessage 7 xid1 [x2c]%byte.
Definition conn_reply : MockConn :=
  mkMockConn [inr (ToBytes reply1, server1)] [] false.
Definition world_reply : @World MockConn :=
  mkWorld (mkClient hw0 (Some conn_reply) (5 * Second) 3 5 AllDHCPServers
             0 false 1 false ∅) ∅ 0%nat ∅ AtRead [] [].

(** The caller's context 7 reaches its deadline in the first attempt,
    which is retried. *)
Definition script_deadline : list item :=
  [CtxDone 7%nat context_DeadlineExceeded; Select CaseCtx].

(** In the second attempt the reply arrives and the caller takes it,
    then another goroutine calls [Close]; [script_shutdown] goes on with
    the [select] taking the shutdown case. *)
Definition script_reply : list item :=
  [Worker true; Worker true; Worker true; Worker true; Select CasePacket; Closer].
Definition script_shutdown : list item := script_reply ++ [Select CaseDone].

(** The state at the head of the second attempt. *)
Definition world_reply_retried : @World MockConn :=
  final (SendAndRead 7%nat AllDHCPServers solicit1
           (Some (IsMessageType MessageTypeAdvertise)) [script_deadline] world_reply).

(** The schedule on which the response to [solicit1] arrives and is
    taken. *)
Definition delivery : list item :=
  [Worker true; Worker true; Worker true; Worker true; Select CasePacket].

Section Options.
Context {C : Type} `{!PacketConn C} `{!Dhcpv6}.

(** The options this package provides (lines 183-219). *)
Inductive known_opt : @ClientOpt C → Prop :=
  | known_withBufferCap n : known_opt (withBufferCap n)
  | known_WithTimeout d : known_opt (WithTimeout d)
  | known_WithRetry r : known_opt (WithRetry r)
  | known_WithConn k : known_opt (WithConn k)
  | known_WithBroadcastAddr n : known_opt (WithBroadcastAddr n).

(** [w'] comes from [w] by steps that make no channel and only remove
    entries from the registry. *)
Definition shrinks (w w' : @World C) : Prop :=
  pending (client w') ⊆ pending (client w) ∧ next w' = next w.

Definition shrinks_op {A} (m : M (@World C) A) : Prop :=
  ∀ w, shrinks w (final (m w)).

(** A schedule run from a state while no call is in progress. *)
Definition run_env (its : list item) (w : @World C) : @World C :=
  foldl (λ w it, env_step None it w) w its.

End Options.

(** The advertisement answering the mock codec's solicit, and a client on
    a socket where it arrives. *)
Definition advertise_sol : Message := mkMessage 2 (x0a, x0b, x0c)%byte [x2a]%byte.
Definition conn_sol : MockConn :=
  mkMockConn [inr (ToBytes advertise_sol, server1)] [] false.
Definition world_sol : @World MockConn :=
  mkWorld (mkClient hw0 (Some conn_sol) (5 * Second) 3 5 AllDHCPServers
             0 false 1 false ∅) ∅ 0%nat ∅ AtRead [] [].
(** * Properties *)

(** ** Unfolding the monad *)

Lemma bind_Ret {S A B} (m : M S A) (f : A → M S B) s a s' :
  m s = Ret a s' → (m ≫= f) s = f a s'.
Proof. intros E. unfold mbind, M_bind. by rewrite E. Qed.

Lemma bind_Parked {S A B} (m : M S A) (f : A → M S B) s s' :
  m s = Parked s' → (m ≫= f) s = Parked s'.
Proof. intros E. unfold mbind, M_bind. by rewrite E. Qed.

Lemma bind_Panic {S A B} (m : M S A) (f : A → M S B) s s' :
  m s = Panic s' → (m ≫= f) s = Panic s'.
Proof. intros E. unfold mbind, M_bind. by rewrite E. Qed.

Lemma final_bind {S A B} (m : M S A) (f : A → M S B) s :
  final ((m ≫= f) s) =
  match m s with
  | Ret a s' => final (f a s')
  | Parked s' | Panic s' => s'
  end.
Proof. unfold mbind, M_bind. by destruct (m s). Qed.

(** ** The retry policy *)

Section retry_facts.
Context {S A : Type}.
Context (c_timeout c_retry : S → Z).
Context (fn : A → Z → M S (option error)).

Lemma retryFn_loop_eq i timeout envs s :
  retryFn_loop c_retry fn i timeout envs s =
  if attempts_remain c_retry i s then
    match envs with
    | [] => Parked s
    | a :: envs' =>
        match fn a timeout s with
        | Ret None s' => Ret ExitNil s'
        | Ret (Some err) s' =>
            if decide (err = context_DeadlineExceeded)
            then retryFn_loop c_retry fn (wrap64 (i + 1)) (wrap64 (timeout * 2)) envs' s'
            else Ret (ExitDefault err) s'
        | Parked s' => Parked s'
        | Panic s' => Panic s'
        end
    end
  else Ret ExitExhausted s.
Proof. by destruct envs. Qed.

(** No attempts remain: the loop ends by exhaustion, without calling [fn]. *)
Lemma retryFn_loop_exhausted i timeout envs s :
  attempts_remain c_retry i s = false →
  retryFn_loop c_retry fn i timeout envs s = Ret ExitExhausted s.
Proof. intros E. by rewrite retryFn_loop_eq, E. Qed.

(** A nil outcome ends the loop with nil. *)
Lemma retryFn_loop_success i timeout a envs s s' :
  attempts_remain c_retry i s = true →
  fn a timeout s = Ret None s' →
  retryFn_loop c_retry fn i timeout (a :: envs) s = Ret ExitNil s'.
Proof. intros E F. by rewrite retryFn_loop_eq, E, F. Qed.

(** Every error but [context.DeadlineExceeded] ends the loop and is
    returned as it is: [errDeadlineExceeded], the closure's own timeout
    error, among them. *)
Lemma retryFn_loop_default i timeout a envs s s' err :
  attempts_remain c_retry i s = true →
  fn a timeout s = Ret (Some err) s' →
  err ≠ context_DeadlineExceeded →
  retryFn_loop c_retry fn i timeout (a :: envs) s = Ret (ExitDefault err) s'.
Proof.
  intros E F N. rewrite retryFn_loop_eq, E, F. by destruct (decide _).
Qed.

(** [context.DeadlineExceeded] is the one outcome after which the loop
    goes on, with [i + 1] and twice the timeout. *)
Lemma retryFn_loop_again i timeout a envs s s' :
  attempts_remain c_retry i s = true →
  fn a timeout s = Ret (Some context_DeadlineExceeded) s' →
  retryFn_loop c_retry fn i timeout (a :: envs) s =
  retryFn_loop c_retry fn (wrap64 (i + 1)) (wrap64 (timeout * 2)) envs s'.
Proof.
  intros E F. rewrite retryFn_loop_eq, E, F. by destruct (decide _).
Qed.

Lemma retryFn_states_eq i timeout envs s :
  retryFn_states c_retry fn i timeout envs s =
  if attempts_remain c_retry i s then
    match envs with
    | [] => []
    | a :: envs' =>
        match fn a timeout s with
        | Ret None s' => [s']
        | Ret (Some err) s' =>
            s' :: (if decide (err = context_DeadlineExceeded)
                   then retryFn_states c_retry fn (wrap64 (i + 1))
                          (wrap64 (timeout * 2)) envs' s'
                   else [])
        | Parked _ | Panic _ => []
        end
    end
  else [].
Proof. destruct envs; simpl; by destruct (attempts_remain _ _ _). Qed.

(** With a negative [c.retry] the loop never leaves by exhaustion. *)
Lemma retryFn_loop_negative envs :
  (∀ s, c_retry s < 0) →
  ∀ i timeout s s', retryFn_loop c_retry fn i timeout envs s ≠ Ret ExitExhausted s'.
Proof.
  intros Hneg. induction envs as [|a envs IH]; intros i timeout s s';
    rewrite retryFn_loop_eq; unfold attempts_remain;
    (replace (c_retry s <? 0) with true by (symmetry; apply Z.ltb_lt, Hneg));
    rewrite orb_true_r; [done|].
  destruct (fn a timeout s) as [[err|] s1| |]; try done.
  destruct (decide _); [apply IH | done].
Qed.

End retry_facts.

(** Doubling stays exact while the timeout fits in an [int64]. *)
Lemma wrap64_exact z : int64_range z → wrap64 z = z.
Proof.
  unfold int64_range, wrap64. intros Hz.
  rewrite Z.mod_small; lia.
Qed.

(** The policy, as a function of the outcomes: whatever the retry count
    (if it lets one attempt run), the closure's timeout outcome
    [errDeadlineExceeded] ends it after that one attempt. *)
Lemma retry_policy_timeout_stops base retries rest :
  retries ≠ 0 →
  retry_policy base retries (Some errDeadlineExceeded :: rest)
  = Ret (ExitDefault errDeadlineExceeded) [base].
Proof.
  intros Hr. unfold retry_policy, retryFn.
  apply retryFn_loop_default; [|done..].
  unfold attempts_remain. apply orb_true_iff.
  destruct (Z.ltb_spec 0 retries); [by left | right; apply Z.ltb_lt; lia].
Qed.

(** C3 (the code at the failing input).  Base timeout 1, three retries:
    an attempt ending in the closure's timeout outcome
    ([errDeadlineExceeded], line 322) is not followed by another attempt
    and the timeout is not doubled, while the caller's
    [context.DeadlineExceeded] (line 325), which is not a timeout of the
    attempt, is retried with doubled timeouts 1, 2, 4. *)
Theorem retryFn_retries_on_the_wrong_error :
  retry_policy 1 3 [Some errDeadlineExceeded; Some errDeadlineExceeded; None]
    = Ret (ExitDefault errDeadlineExceeded) [1]
  ∧ retry_policy 1 3 [Some context_DeadlineExceeded;
                      Some context_DeadlineExceeded; None]
    = Ret ExitNil [1; 2; 4].
Proof. split; reflexivity. Qed.

(** ** The registry under [send] *)

Section send_facts.
Context {C : Type} `{!PacketConn C} `{!Dhcpv6}.
Implicit Types w : @World C.

Lemma await_from_eq {A} (m : M World A) s w :
  await_from m s w =
  match m w with
  | Ret a w' => Ret a (set_sched s w')
  | Panic w' => Panic (set_sched s w')
  | Parked w' =>
      match s with
      | [] => Parked (set_sched [] w')
      | it :: s' => await_from m s' (env_step None it w')
      end
  end.
Proof. by destruct s. Qed.

(** Taking a free mutex and giving it back leaves the state as it was. *)
Lemma lock_unlock_id w :
  pendingMu (client w) = false →
  on_client (set_pendingMu false)
    (set_sched (sched w) (on_client (set_pendingMu true) w)) = w.
Proof.
  destruct w as [c ? ? ? ? ? ?], c; simpl. by intros ->.
Qed.

(** A caller takes a free mutex at once. *)
Lemma Lock_free w :
  pendingMu (client w) = false →
  Lock w = Ret tt (on_client (set_pendingMu true) w).
Proof.
  intros Hmu. unfold Lock, await. rewrite await_from_eq.
  unfold mu_acquire. rewrite Hmu. by destruct w.
Qed.

(** [send] under a registered TransactionID, the mutex being free. *)
Lemma send_in_use_fails_aux dest msg w p :
  pending (client w) !! MsgTransactionID msg = Some p →
  pendingMu (client w) = false →
  send dest msg w = Ret (inl (errInUse (MsgTransactionID msg))) w.
Proof.
  intros Hp Hmu. unfold send.
  rewrite (bind_Ret _ _ _ _ _ (Lock_free w Hmu)).
  unfold mbind, M_bind, gets; simpl. rewrite Hp.
  unfold Unlock, mu_release, mret, M_ret; simpl.
  f_equal. destruct w as [c ? ? ? ? ? ?], c; simpl in *. by subst.
Qed.

(** C6.  [send] under a TransactionID that is registered (the mutex being
    free to take) returns the "already in use" error and leaves the whole
    state as it was: the registry still maps the id to the first waiter's
    pair of channels, no channel was made or touched, and nothing was
    written to the socket.  The registry being a map, an id has at most one
    waiter at any time. *)
Theorem send_in_use_fails w dest msg p :
  pending (client w) !! MsgTransactionID msg = Some p →
  pendingMu (client w) = false →
  send dest msg w = Ret (inl (errInUse (MsgTransactionID msg))) w.
Proof.
  intros Hp Hmu. unfold send.
  rewrite (bind_Ret _ _ _ _ _ (Lock_free w Hmu)).
  unfold mbind, M_bind, gets; simpl. rewrite Hp.
  unfold Unlock, mu_release, mret, M_ret; simpl.
  f_equal. destruct w as [c ? ? ? ? ? ?], c; simpl in *. by subst.
Qed.

End send_facts.

Lemma send_in_use_fails_witness :
  pending (client world_pending1) !! xid1 = Some (pendingCh.mk 1 0)
  ∧ send server1 solicit1 world_pending1 = Ret (inl (errInUse xid1)) world_pending1.
Proof.
  split; [reflexivity|].
  apply (send_in_use_fails world_pending1 server1 solicit1 (pendingCh.mk 1 0));
    reflexivity.
Defined.

(** ** The receive loop *)

Section loop_facts.
Context {C : Type} `{!PacketConn C} `{!Dhcpv6}.
Implicit Types w : @World C.

(** The step at the lookup: it takes the mutex, reads the registry under
    the message's TransactionID and goes to the [select] with the entry it
    found, or straight to the unlock.  Registry and channels are as before. *)
Lemma step_lookup r b w msg :
  loop w = AtLookup msg →
  pendingMu (client w) = false →
  receiveLoop_step r b w =
  Ret tt (set_loop (match pending (client w) !! MsgTransactionID msg with
                    | Some p => AtSelect msg p
                    | None => AtUnlock
                    end)
            (on_client (set_pendingMu true) w)).
Proof.
  intros Hl Hmu. unfold receiveLoop_step. rewrite Hl.
  unfold mbind, M_bind, mu_acquire, gets, modify. rewrite Hmu. simpl.
  by destruct (pending (client w) !! MsgTransactionID msg).
Qed.

(** The step at the unlock: it releases the mutex and goes back to read. *)
Lemma step_unlock r b w :
  loop w = AtUnlock →
  pendingMu (client w) = true →
  receiveLoop_step r b w = Ret tt (set_loop AtRead (on_client (set_pendingMu false) w)).
Proof.
  intros Hl Hmu. unfold receiveLoop_step. rewrite Hl.
  unfold mbind, M_bind, mu_release, modify. by rewrite Hmu.
Qed.

(** [close(p.ch); delete(...)] never parks. *)
Lemma remove_pending_no_park xid p w w' : remove_pending xid p w ≠ Parked w'.
Proof.
  unfold remove_pending, mbind, M_bind, close_chan, modify.
  destruct (chans w !! pendingCh.ch p) as [q|]; [|done].
  by destruct (is_closed q).
Qed.

(** [p.ch <- msg] parks exactly when the send is not ready. *)
Lemma chan_send_parks r l m w :
  chan_send r l m w = Parked w ↔ send_ready r l w = false.
Proof.
  unfold chan_send, send_ready.
  destruct (chans w !! l) as [q|]; [|done].
  destruct (is_closed q); [done|]. simpl.
  by destruct ((Z.of_nat (length (buf q)) <? cap q) || receiver_waits r l q).
Qed.

Lemma chan_send_parks_same r l m w w' : chan_send r l m w = Parked w' → w' = w.
Proof.
  unfold chan_send. destruct (chans w !! l) as [q|]; [|congruence].
  destruct (is_closed q); [done|].
  destruct ((Z.of_nat (length (buf q)) <? cap q) || receiver_waits r l q);
    [done | congruence].
Qed.

(** The [select] of the loop parks exactly when neither case can proceed:
    the waiter's [done] is open and its queue takes no message. *)
Lemma loop_select_parks r b msg p w :
  loop_select r b msg p w = Parked w ↔
  closed_chan (pendingCh.done p) w = false
  ∧ send_ready r (pendingCh.ch p) w = false.
Proof.
  unfold loop_select.
  destruct (closed_chan (pendingCh.done p) w) eqn:Ed; simpl.
  - destruct (b || negb (send_ready r (pendingCh.ch p) w)) eqn:Eb.
    + split; [|by intros [? _]]. intros E. by apply remove_pending_no_park in E.
    + rewrite chan_send_parks. apply orb_false_iff in Eb as [_ Eb].
      apply negb_false_iff in Eb. rewrite Eb.
      split; [done | by intros [? _]].
  - rewrite chan_send_parks. split; [done | by intros [_ ?]].
Qed.

Lemma step_select_parks r b w msg p :
  loop w = AtSelect msg p →
  receiveLoop_step r b w = Parked w ↔
  closed_chan (pendingCh.done p) w = false
  ∧ send_ready r (pendingCh.ch p) w = false.
Proof.
  intros Hl. rewrite <- (loop_select_parks r b msg p w).
  unfold receiveLoop_step. rewrite Hl. unfold mbind, M_bind.
  destruct (loop_select r b msg p w) eqn:E; split; done.
Qed.

Lemma remove_pending_Ret xid p w w' :
  remove_pending xid p w = Ret tt w' →
  ∃ q, chans w !! pendingCh.ch p = Some q ∧ is_closed q = false
    ∧ w' = log (EvRemove xid p)
             (on_client (λ c, set_pending (delete xid (pending c)) c)
                (set_chans (<[pendingCh.ch p := mkChan (buf q) (cap q) true]> (chans w)) w)).
Proof.
  unfold remove_pending, mbind, M_bind, close_chan, modify.
  destruct (chans w !! pendingCh.ch p) as [q|]; [|done].
  destruct (is_closed q) eqn:Eq; [done|]. intros [= <-]. by exists q.
Qed.

Lemma chan_send_Ret r l m w w' :
  chan_send r l m w = Ret tt w' →
  ∃ q, chans w !! l = Some q ∧ is_closed q = false
    ∧ w' = set_chans (<[l := mkChan (buf q ++ [m]) (cap q) false]> (chans w)) w.
Proof.
  unfold chan_send.
  destruct (chans w !! l) as [q|]; [|done].
  destruct (is_closed q) eqn:Eq; [done|].
  destruct ((Z.of_nat (length (buf q)) <? cap q) || receiver_waits r l q); [|done].
  intros [= <-]. by exists q.
Qed.

(** The step at the [select], when it proceeds: it goes to the unlock
    with the mutex as it was; channels other than the entry's queue [p.ch]
    and registry entries other than the message's id are untouched; the
    queue [p.ch] either received the message at its end, or kept its
    contents (and was closed, the entry being removed). *)
Lemma step_select r b w w' msg p :
  loop w = AtSelect msg p →
  receiveLoop_step r b w = Ret tt w' →
  loop w' = AtUnlock
  ∧ pendingMu (client w') = pendingMu (client w)
  ∧ (∀ l, l ≠ pendingCh.ch p → chans w' !! l = chans w !! l)
  ∧ (∀ y, y ≠ MsgTransactionID msg →
       pending (client w') !! y = pending (client w) !! y)
  ∧ (queue w' (pendingCh.ch p) = (λ q, q ++ [msg]) <$> queue w (pendingCh.ch p)
       ∧ pending (client w') = pending (client w)
     ∨ queue w' (pendingCh.ch p) = queue w (pendingCh.ch p)
       ∧ closed_chan (pendingCh.done p) w = true
       ∧ pending (client w') = delete (MsgTransactionID msg) (pending (client w))).
Proof.
  intros Hl. unfold receiveLoop_step. rewrite Hl. unfold mbind, M_bind.
  destruct (loop_select r b msg p w) as [[] w1| |] eqn:E; [|done..].
  unfold modify. intros [= <-]. unfold loop_select in E.
  destruct (closed_chan (pendingCh.done p) w
            && (b || negb (send_ready r (pendingCh.ch p) w))) eqn:Eb.
  - apply remove_pending_Ret in E as (q & Hq & Hc & ->).
    apply andb_true_iff in Eb as [Ed _]. unfold queue. simpl.
    split_and!; [done | done | | | ].
    + intros l Hne. by rewrite lookup_insert_ne.
    + intros y Hne. by rewrite lookup_delete_ne.
    + right. rewrite lookup_insert_eq, Hq. done.
  - apply chan_send_Ret in E as (q & Hq & Hc & ->). unfold queue. simpl.
    split_and!; [done | done | | done | ].
    + intros l Hne. by rewrite lookup_insert_ne.
    + left. rewrite lookup_insert_eq, Hq. done.
Qed.

(** When the [select] does not proceed, the state is as it was. *)
Lemma loop_select_final r b msg p w :
  (∃ w', loop_select r b msg p w = Ret tt w')
  ∨ final (loop_select r b msg p w) = w.
Proof.
  unfold loop_select.
  destruct (closed_chan _ w && _).
  - unfold remove_pending, mbind, M_bind, close_chan, modify.
    destruct (chans w !! pendingCh.ch p) as [q|]; [|by right].
    destruct (is_closed q); [by right | left; eauto].
  - unfold chan_send.
    destruct (chans w !! pendingCh.ch p) as [q|]; [|by right].
    destruct (is_closed q); [by right|].
    destruct ((Z.of_nat (length (buf q)) <? cap q) || receiver_waits r _ q);
      [left; eauto | by right].
Qed.

Lemma step_select_final r b w msg p :
  loop w = AtSelect msg p →
  (∃ w', receiveLoop_step r b w = Ret tt w')
  ∨ final (receiveLoop_step r b w) = w.
Proof.
  intros Hl. unfold receiveLoop_step. rewrite Hl. unfold mbind, M_bind, modify.
  destruct (loop_select_final r b msg p w) as [[w' E]|E].
  - left. rewrite E. eauto.
  - destruct (loop_select r b msg p w) as [[] w'| |] eqn:E'; simpl in *;
      [left; eauto | by right..].
Qed.

Lemma registry_wf_lookup w x p :
  registry_wf w → pending (client w) !! x = Some p →
  (pendingCh.ch p < next w)%nat ∧ (pendingCh.done p < next w)%nat
  ∧ pendingCh.ch p ≠ pendingCh.done p
  ∧ ∀ y q, pending (client w) !! y = Some q → x ≠ y →
      pendingCh.ch p ≠ pendingCh.ch q ∧ pendingCh.ch p ≠ pendingCh.done q.
Proof.
  intros Hwf Hx. destruct (Hwf x p Hx) as (? & ? & ? & Hall).
  split_and!; [done..|]. intros y q Hy. exact (Hall y q Hy).
Qed.

(** C5.  The receive loop has decoded [msg] and is about to dispatch it
    (line 163).  Its next step takes the lock and looks the message's
    TransactionID up, changing neither registry nor channels.  If no waiter
    is registered under that id the following step unlocks and the state is
    what it was before the message, the loop back at its read: the message
    is dropped.  If [p] is registered under it, the loop goes to its
    [select] with [p], and whatever that step does, every waiter [q]
    registered under another id keeps its registration and its channel
    unchanged, and the queue of [p] keeps its contents or gets [msg]
    appended. *)
Theorem receiveLoop_demultiplexes r b w msg :
  loop w = AtLookup msg →
  pendingMu (client w) = false →
  registry_wf w →
  ∃ w1, receiveLoop_step r b w = Ret tt w1
    ∧ pending (client w1) = pending (client w)
    ∧ chans w1 = chans w
    ∧ match pending (client w) !! MsgTransactionID msg with
      | None => receiveLoop_step r b w1 = Ret tt (set_loop AtRead w)
      | Some p =>
          loop w1 = AtSelect msg p
          ∧ ∀ r' b', let w2 := final (receiveLoop_step r' b' w1) in
              (∀ y q, y ≠ MsgTransactionID msg →
                 pending (client w) !! y = Some q →
                 pending (client w2) !! y = Some q
                 ∧ chans w2 !! pendingCh.ch q = chans w !! pendingCh.ch q)
              ∧ (queue w2 (pendingCh.ch p) = queue w (pendingCh.ch p)
                 ∨ queue w2 (pendingCh.ch p)
                   = (λ l, l ++ [msg]) <$> queue w (pendingCh.ch p))
      end.
Proof.
  intros Hl Hmu Hwf. eexists. split; [by apply step_lookup|].
  split; [done|]. split; [done|].
  destruct (pending (client w) !! MsgTransactionID msg) as [p|] eqn:Hp.
  - split; [done|]. intros r' b' w2.
    set (w1 := set_loop (AtSelect msg p) (on_client (set_pendingMu true) w)) in *.
    destruct (step_select_final r' b' w1 msg p eq_refl) as [[w' E]|E].
    + destruct (step_select r' b' w1 w' msg p eq_refl E) as (_ & _ & Hch & Hpd & Hq).
      subst w2. rewrite E. simpl. split.
      * intros y q Hne Hy.
        destruct (registry_wf_lookup w _ _ Hwf Hp) as (_ & _ & _ & Hdis).
        destruct (Hdis y q Hy (not_eq_sym Hne)) as [Hcc _].
        rewrite Hpd by done. rewrite Hch by done. done.
      * destruct Hq as [[Hq _]|[Hq _]]; [by right | by left].
    + subst w2. rewrite E. split; [|by left]. done.
  - rewrite step_unlock; [|done..]. f_equal.
    destruct w as [c ? ? ? ? ? ?], c; simpl in *. by subst.
Qed.

(** C9, as amended.  The receive loop takes the lock for the lookup, is
    at its [select] with the lock held, and gives the lock back only in the
    step after the [select].  The [select] is blocked exactly when the
    waiter's own [done] is open and its queue takes no message (the queue
    is open, its buffer has no room and no receiver waits on it); nothing
    else enters the race. *)
Theorem loop_holds_lock_across_select r b w msg p :
  loop w = AtLookup msg →
  pendingMu (client w) = false →
  pending (client w) !! MsgTransactionID msg = Some p →
  ∃ w1, receiveLoop_step r b w = Ret tt w1
    ∧ loop w1 = AtSelect msg p
    ∧ pendingMu (client w1) = true
    ∧ (∀ r' b', receiveLoop_step r' b' w1 = Parked w1 ↔
         closed_chan (pendingCh.done p) w1 = false
         ∧ send_ready r' (pendingCh.ch p) w1 = false)
    ∧ (∀ r' b' w2, receiveLoop_step r' b' w1 = Ret tt w2 →
         loop w2 = AtUnlock ∧ pendingMu (client w2) = true
         ∧ ∃ w3, receiveLoop_step r' b' w2 = Ret tt w3
             ∧ loop w3 = AtRead ∧ pendingMu (client w3) = false).
Proof.
  intros Hl Hmu Hp. eexists. split; [by apply step_lookup|]. rewrite Hp.
  split; [done|]. split; [done|]. split.
  - intros r' b'. by apply (step_select_parks r' b' _ msg p).
  - intros r' b' w2 E.
    destruct (λ Hs, step_select r' b' _ w2 msg p Hs E) as (Hl2 & Hmu2 & _); [done|].
    simpl in Hmu2. split; [done|]. split; [done|].
    eexists. split; [by apply step_unlock|]. done.
Qed.

End loop_facts.

Lemma receiveLoop_demultiplexes_witness :
  loop world_two = AtLookup advertise1
  ∧ pending (client world_two) !! xid2 = Some (pendingCh.mk 3 2)
  ∧ ∃ w1, receiveLoop_step None true world_two = Ret tt w1
      ∧ pending (client w1) = pending (client world_two)
      ∧ chans w1 = chans world_two.
Proof.
  split; [by vm_compute|]. split; [by vm_compute|].
  destruct (receiveLoop_demultiplexes None true world_two advertise1)
    as (w1 & E & Hp & Hc & _);
    [by vm_compute | by vm_compute
     | apply (bool_decide_unpack _); by vm_compute |].
  exists w1. by split_and!.
Defined.

Lemma loop_holds_lock_across_select_witness :
  ∃ w1, receiveLoop_step None true world_two = Ret tt w1
    ∧ loop w1 = AtSelect advertise1 (pendingCh.mk 1 0)
    ∧ pendingMu (client w1) = true.
Proof.
  destruct (loop_holds_lock_across_select None true world_two advertise1
              (pendingCh.mk 1 0))
    as (w1 & E & Hl & Hmu & _); [reflexivity..|].
  exists w1. by split_and!.
Defined.

(** C9, as stated, fails: with the queue of [xid1] full and its waiter not
    done, the loop is blocked at its [select] and the mutex is locked. *)
Lemma loop_blocks_with_lock_held : ¬ lock_free_while_blocked world_full.
Proof.
  intros Hfree.
  assert (pendingMu (client world_full) = false) as Hmu; [|by vm_compute in Hmu].
  apply (Hfree advertise1 (pendingCh.mk 1 0)); [reflexivity|].
  intros r b.
  apply (step_select_parks r b world_full advertise1 (pendingCh.mk 1 0));
    [reflexivity|].
  split; [by vm_compute|]. unfold send_ready, receiver_waits.
  change (pendingCh.ch (pendingCh.mk 1 0)) with 0%nat.
  replace (chans world_full !! 0%nat) with (Some (mkChan [advertise1] 1 false))
    by (by vm_compute).
  simpl. apply andb_false_r.
Qed.

(** In that state a [send] under another TransactionID waits for the
    mutex: it is parked. *)
Lemma send_parks_while_loop_blocked :
  send AllDHCPServers solicit2 world_full = Parked world_full.
Proof. by vm_compute. Qed.

(** ** Steps that leave a caller's registrations and datagrams alone *)

Lemma registrations_app t1 t2 :
  registrations (t1 ++ t2) = registrations t1 ++ registrations t2.
Proof.
  induction t1 as [|[] t1 IH]; simpl; by rewrite ?IH.
Qed.

Lemma writes_app t1 t2 : writes (t1 ++ t2) = writes t1 ++ writes t2.
Proof.
  induction t1 as [|[] t1 IH]; simpl; by rewrite ?IH.
Qed.

Lemma timeouts_app t1 t2 : timeouts (t1 ++ t2) = timeouts t1 ++ timeouts t2.
Proof.
  induction t1 as [|[] t1 IH]; simpl; by rewrite ?IH.
Qed.

Section quiet_facts.
Context {C : Type} `{!PacketConn C} `{!Dhcpv6}.
Implicit Types w : @World C.
Local Abbreviation qop := (quiet_op (C:=C)).

Lemma quiet_refl w : quiet w w.
Proof. unfold quiet. by split_and!. Qed.

Lemma quiet_trans w1 w2 w3 : quiet w1 w2 → quiet w2 w3 → quiet w1 w3.
Proof.
  unfold quiet.
  intros (P1 & R1 & W1 & N1 & K1 & G1 & T1 & U1 & B1 & C1 & D1)
         (P2 & R2 & W2 & N2 & K2 & G2 & T2 & U2 & B2 & C2 & D2).
  split_and!; try congruence; auto.
  - by etrans.
  - intros Hc. rewrite C2; [by apply C1 | by rewrite C1].
Qed.

Ltac quiet_tac :=
  unfold quiet; simpl;
  rewrite ?registrations_app, ?writes_app; simpl; rewrite ?app_nil_r;
  split_and!;
  try done; try (by apply prefix_app_r); try (by eexists); eauto.

Lemma quiet_bind {A B} (m : M (@World C) A) (f : A → M (@World C) B) :
  qop m → (∀ a, qop (f a)) → qop (m ≫= f).
Proof.
  intros Hm Hf w. rewrite final_bind. specialize (Hm w).
  destruct (m w) as [a w'| |]; simpl in *; [|done..].
  eapply quiet_trans; [exact Hm | apply Hf].
Qed.

Lemma quiet_ret {A} (a : A) : qop (mret a : M (@World C) A).
Proof. intros w. apply quiet_refl. Qed.

Lemma quiet_gets {A} (f : @World C → A) : qop (gets f).
Proof. intros w. apply quiet_refl. Qed.

Lemma quiet_modify (f : @World C → @World C) :
  (∀ w, quiet w (f w)) → qop (modify f).
Proof. intros Hf w. apply Hf. Qed.

Lemma quiet_set_sched s w : quiet w (set_sched s w).
Proof. quiet_tac. Qed.

Lemma quiet_set_loop pc w : quiet w (set_loop pc w).
Proof. quiet_tac. Qed.

Lemma quiet_close_chan l : qop (close_chan l).
Proof.
  intros w. unfold close_chan. repeat case_match; simpl; quiet_tac.
Qed.

Lemma quiet_mu_acquire : qop mu_acquire.
Proof. intros w. unfold mu_acquire. case_match; simpl; quiet_tac. Qed.

Lemma quiet_mu_release : qop mu_release.
Proof. intros w. unfold mu_release. case_match; simpl; quiet_tac. Qed.

Lemma quiet_conn_ReadFrom : qop conn_ReadFrom.
Proof.
  intros w. unfold conn_ReadFrom. repeat case_match; simpl; quiet_tac.
Qed.

Lemma quiet_conn_Close : qop conn_Close.
Proof.
  intros w. unfold conn_Close. repeat case_match; simpl; quiet_tac.
Qed.

Lemma quiet_close_done : qop close_done.
Proof. intros w. unfold close_done. case_match; simpl; quiet_tac. Qed.

Lemma quiet_CompareAndSwap_closed : qop (CompareAndSwap_closed 0 1).
Proof.
  intros w. unfold CompareAndSwap_closed.
  destruct (closed (client w) =? 0) eqn:E; simpl; quiet_tac.
  apply Z.eqb_eq in E. by intros [].
Qed.

Lemma quiet_wg_Done : qop wg_Done.
Proof. intros w. unfold wg_Done. case_match; simpl; quiet_tac. Qed.

Lemma quiet_chan_send r l m : qop (chan_send r l m).
Proof.
  intros w. unfold chan_send. repeat case_match; simpl; quiet_tac.
Qed.

Lemma quiet_chan_recv l : qop (chan_recv l).
Proof.
  intros w. unfold chan_recv. repeat case_match; simpl; quiet_tac.
Qed.

Lemma quiet_remove_pending xid p : qop (remove_pending xid p).
Proof.
  unfold remove_pending.
  apply quiet_bind; [apply quiet_close_chan|]. intros _.
  apply quiet_bind; intros; apply quiet_modify; intros w; quiet_tac.
  intros x Hx. by apply lookup_delete_None; right.
Qed.

Lemma quiet_loop_select r b msg p : qop (loop_select r b msg p).
Proof.
  intros w. unfold loop_select.
  case_match; [apply quiet_remove_pending | apply quiet_chan_send].
Qed.

Lemma quiet_receiveLoop_step r b : qop (receiveLoop_step r b).
Proof.
  intros w. unfold receiveLoop_step. destruct (loop w).
  - apply quiet_bind; [apply quiet_conn_ReadFrom|]. intros [err|bs].
    + apply quiet_bind.
      { case_match; [apply quiet_ret|]. apply quiet_modify. intros; quiet_tac. }
      intros _. apply quiet_bind; [apply quiet_wg_Done|]. intros _.
      apply quiet_bind; [apply quiet_modify; intros; quiet_tac|].
      intros _. apply quiet_modify, quiet_set_loop.
    + case_match; [apply quiet_ret|]. apply quiet_modify, quiet_set_loop.
  - apply quiet_bind; [apply quiet_mu_acquire|]. intros _.
    apply quiet_bind; [apply quiet_gets|]. intros [p|];
      apply quiet_modify, quiet_set_loop.
  - apply quiet_bind; [apply quiet_loop_select|]. intros _.
    apply quiet_modify, quiet_set_loop.
  - apply quiet_bind; [apply quiet_mu_release|]. intros _.
    apply quiet_modify, quiet_set_loop.
  - apply quiet_refl.
Qed.

Lemma quiet_Close_begin : qop Close_begin.
Proof.
  unfold Close_begin.
  apply quiet_bind; [apply quiet_CompareAndSwap_closed|]. intros [|]; simpl.
  - apply quiet_bind; [apply quiet_conn_Close|]. intros err.
    apply quiet_bind; [apply quiet_close_done|]. intros _. apply quiet_ret.
  - apply quiet_ret.
Qed.

Lemma quiet_env_step r it w : quiet w (env_step r it w).
Proof.
  destruct it as [b| |ctx err|k]; simpl.
  - apply quiet_receiveLoop_step.
  - apply quiet_Close_begin.
  - case_match; quiet_tac.
  - apply quiet_refl.
Qed.

Lemma quiet_await_from {A} (m : M (@World C) A) s w :
  qop m → quiet w (final (await_from m s w)).
Proof.
  intros Hm. revert w. induction s as [|it s IH]; intros w;
    rewrite await_from_eq; specialize (Hm w);
    destruct (m w) as [a w'|w'|w']; simpl in *;
    try (eapply quiet_trans; [exact Hm | apply quiet_set_sched]).
  eapply quiet_trans; [exact Hm|].
  eapply quiet_trans; [apply quiet_env_step | apply IH].
Qed.

Lemma quiet_await {A} (m : M (@World C) A) : qop m → qop (await m).
Proof. intros Hm w. by apply quiet_await_from. Qed.

Lemma quiet_Lock : qop Lock.
Proof. apply quiet_await, quiet_mu_acquire. Qed.

Lemma quiet_cancel xid d : qop (cancel xid d).
Proof.
  unfold cancel.
  apply quiet_bind; [apply quiet_close_chan|]. intros _.
  apply quiet_bind; [apply quiet_Lock|]. intros _.
  apply quiet_bind; [apply quiet_gets|]. intros p.
  apply quiet_bind; [|intros _; apply quiet_mu_release].
  destruct p; [apply quiet_remove_pending | apply quiet_ret].
Qed.

Lemma quiet_received match_ s' again ch w :
  (∀ w', quiet w' (final (again w'))) →
  quiet w (final (received match_ s' again (chan_recv ch w) w)).
Proof.
  intros Ha. pose proof (quiet_chan_recv ch w) as Hr. unfold received.
  destruct (chan_recv ch w) as [packet w'|w'|w']; simpl in *; [|apply Ha..].
  destruct match_ as [f|]; [destruct packet as [m|]; [destruct (f m)|]|]; simpl;
    try (eapply quiet_trans; [exact Hr|]; try apply Ha; quiet_tac).
Qed.

Lemma quiet_wait_from ctx match_ ch tmo s w :
  quiet w (final (wait_from ctx match_ ch tmo s w)).
Proof.
  revert w. induction s as [|it s IH]; intros w; [simpl; quiet_tac|].
  assert (∀ w1, quiet w w1 →
    quiet w (final (if handed ch w1
                    then received match_ s (wait_from ctx match_ ch tmo s)
                           (chan_recv ch w1) w1
                    else wait_from ctx match_ ch tmo s w1))) as Henv.
  { intros w1 H1. eapply quiet_trans; [exact H1|].
    case_match; [by apply quiet_received | apply IH]. }
  destruct it as [b| |c err|[]]; simpl.
  - apply Henv, quiet_receiveLoop_step.
  - apply Henv, quiet_Close_begin.
  - apply Henv. case_match; quiet_tac.
  - case_match; simpl; [quiet_tac | apply IH].
  - quiet_tac.
  - case_match; simpl; [quiet_tac | apply IH].
  - by apply quiet_received.
Qed.

Lemma quiet_wait ctx match_ ch tmo : qop (wait ctx match_ ch tmo).
Proof. intros w. apply quiet_wait_from. Qed.

End quiet_facts.

(** ** Close *)

Section close_facts.
Context {C : Type} `{!PacketConn C} `{!Dhcpv6}.
Implicit Types w : @World C.

(** Once [closed] is set, [Close] is a no-op: it returns nil at the failed
    compare-and-swap and the state is untouched. *)
Lemma Close_closed_noop script w :
  closed (client w) ≠ 0 → Close script w = Ret None w.
Proof.
  intros Hc. unfold Close, Close_begin, mbind, M_bind, CompareAndSwap_closed.
  by destruct (Z.eqb_spec (closed (client w)) 0).
Qed.

(** The first [Close], up to its wait: the flag is set, then the socket
    is closed, then [done] is closed. *)
Lemma Close_begin_first w k :
  closed (client w) = 0 → done (client w) = false → conn (client w) = Some k →
  Close_begin w =
  Ret (Some (ConnClose k).2)
    (log EvCloseDone (on_client (set_done true)
       (log EvConnClose (on_client (set_conn (Some (ConnClose k).1))
          (on_client (set_closed 1) w))))).
Proof.
  intros Hc Hd Hk.
  unfold Close_begin, mbind, M_bind, CompareAndSwap_closed, conn_Close, close_done.
  rewrite Hc. simpl. rewrite Hk. destruct (ConnClose k) as [k' err]. simpl.
  by rewrite Hd.
Qed.

Lemma loop_counted_step r b w :
  loop_counted w → loop_counted (final (receiveLoop_step r b w)).
Proof.
  unfold loop_counted, receiveLoop_step.
  destruct (loop w) eqn:Hl; intros [[Hw Hne]|[Hw He]]; try done.
  - unfold mbind, M_bind, conn_ReadFrom, modify, mret, M_ret.
    destruct (conn (client w)) as [k|] eqn:Hk; [|simpl; left; by rewrite Hl].
    destruct (ReadFrom k) as [[k' [err|[bs a]]]|] eqn:Hr; simpl;
      [| |left; by rewrite Hl].
    + unfold wg_Done. destruct (isErrClosing err); simpl; rewrite Hw; simpl;
        right; done.
    + destruct (MessageFromBytes (take 1500 bs)); simpl;
        left; rewrite ?Hl; done.
  - unfold mbind, M_bind, mu_acquire, gets, modify.
    destruct (pendingMu (client w)); simpl; [left; by rewrite Hl|].
    destruct (pending (client w) !! MsgTransactionID msg); simpl; by left.
  - unfold mbind, M_bind, modify.
    pose proof (step_select_final r b w msg p Hl) as Hf.
    unfold receiveLoop_step in Hf. rewrite Hl in Hf. unfold mbind, M_bind, modify in Hf.
    destruct (loop_select r b msg p w) as [[] w'| |] eqn:E; simpl in *.
    + left. split; [|done].
      unfold loop_select in E. case_match.
      * apply remove_pending_Ret in E as (q & _ & _ & ->). done.
      * apply chan_send_Ret in E as (q & _ & _ & ->). done.
    + destruct Hf as [[? ?]| ->]; [done|]. left. by rewrite Hl.
    + destruct Hf as [[? ?]| ->]; [done|]. left. by rewrite Hl.
  - unfold mbind, M_bind, mu_release, modify.
    destruct (pendingMu (client w)); simpl; left; rewrite ?Hl; done.
  - simpl. right. done.
Qed.

Lemma loop_counted_env r it w : loop_counted w → loop_counted (env_step r it w).
Proof.
  destruct it as [b| |ctx err|k]; simpl; [apply loop_counted_step| | |done].
  - unfold loop_counted, Close_begin, mbind, M_bind, CompareAndSwap_closed,
      conn_Close, close_done, mret, M_ret.
    repeat (case_match; simpl in *; simplify_eq; auto).
  - by case_match.
Qed.

(** [c.wg.Wait()] never panics, disturbs nothing, and returns only once
    the receive loop has returned. *)
Lemma wg_Wait_spec w :
  loop_counted w →
  quiet w (final (wg_Wait w))
  ∧ (∀ w', wg_Wait w ≠ Panic w')
  ∧ (∀ a w', wg_Wait w = Ret a w' → loop w' = Exited).
Proof.
  unfold wg_Wait, await. generalize (sched w) as s. intros s. revert w.
  induction s as [|it s IH]; intros w Hw; rewrite await_from_eq.
  - destruct (Z.eqb_spec (wg (client w)) 0) as [E|E]; simpl.
    + split; [apply quiet_set_sched|]. split; [done|].
      intros a w' [= <- <-]. destruct Hw as [[? ?]|[? ?]]; [lia | done].
    + split; [apply quiet_set_sched|]. done.
  - destruct (Z.eqb_spec (wg (client w)) 0) as [E|E]; simpl.
    + split; [apply quiet_set_sched|]. split; [done|].
      intros a w' [= <- <-]. destruct Hw as [[? ?]|[? ?]]; [lia | done].
    + destruct (IH (env_step None it w) (loop_counted_env None it w Hw))
        as (Hq & Hp & Hr).
      split; [|done]. eapply quiet_trans; [apply quiet_env_step | exact Hq].
Qed.

(** C8.  The first [Close] (the flag [closed] is 0) sets the flag, closes
    the socket, then closes [done] (the shutdown signal), then waits: it
    does not panic, and when it returns it returns the socket's close
    error and the receive loop has returned.  With the flag set, every
    further [Close], under any schedule, returns nil and leaves the state
    exactly as it is. *)
Theorem Close_idempotent script w k :
  closed (client w) = 0 →
  done (client w) = false →
  conn (client w) = Some k →
  loop_counted w →
  let r := Close script w in
  (∃ tr, trace (final r) = trace w ++ EvConnClose :: EvCloseDone :: tr)
  ∧ closed (client (final r)) = 1
  ∧ done (client (final r)) = true
  ∧ (∀ w', r ≠ Panic w')
  ∧ (∀ err w', r = Ret err w' → err = (ConnClose k).2 ∧ loop w' = Exited)
  ∧ (∀ script', Close script' (final r) = Ret None (final r)).
Proof.
  intros Hc Hd Hk Hw r. subst r. unfold Close.
  rewrite (bind_Ret _ _ _ _ _ (Close_begin_first w k Hc Hd Hk)).
  set (w2 := log EvCloseDone _).
  assert (loop_counted (set_sched script w2)) as Hw2.
  { unfold loop_counted in *. simpl. done. }
  destruct (wg_Wait_spec _ Hw2) as (Hq & Hp & Hr).
  assert (final ((modify (set_sched script);; wg_Wait;; mret (ConnClose k).2) w2)
          = final (wg_Wait (set_sched script w2))) as Hfin.
  { unfold mbind, M_bind, modify. simpl.
    by destruct (wg_Wait (set_sched script w2)). }
  rewrite Hfin.
  destruct Hq as ([tr Htr] & _ & _ & _ & _ & _ & _ & _ & _ & Hcl & Hdn).
  assert (closed (client (final (wg_Wait (set_sched script w2)))) = 1) as Hc1.
  { rewrite Hcl; simpl; done. }
  split_and!.
  - exists tr. rewrite Htr. simpl. by rewrite <- !app_assoc.
  - done.
  - by apply Hdn.
  - intros w'. unfold mbind, M_bind, modify. simpl.
    destruct (wg_Wait (set_sched script w2)) eqn:E; try done.
    by specialize (Hp s).
  - intros err w'. unfold mbind, M_bind, modify. simpl.
    destruct (wg_Wait (set_sched script w2)) as [[] w3| |] eqn:E; try done.
    intros [= <- <-]. split; [done|]. by apply (Hr tt).
  - intros script'. apply Close_closed_noop. rewrite Hc1. done.
Qed.

End close_facts.

Lemma Close_idempotent_witness :
  Close [Worker true] world0
    = Ret None (final (Close [Worker true] world0))
  ∧ loop (final (Close [Worker true] world0)) = Exited
  ∧ Close [] (final (Close [Worker true] world0))
    = Ret None (final (Close [Worker true] world0)).
Proof.
  destruct (Close_idempotent [Worker true] world0 conn0)
    as (_ & _ & _ & _ & _ & Hagain);
    [reflexivity | reflexivity | reflexivity | by left |].
  split; [by vm_compute|]. split; [by vm_compute|]. apply Hagain.
Defined.

(** ** send, step by step *)

Section call_facts.
Context {C : Type} `{!PacketConn C} `{!Dhcpv6}.
Implicit Types w : @World C.

(** A caller that got the mutex holds it. *)
Lemma await_mu_acquire_Ret s w w1 :
  await_from mu_acquire s w = Ret tt w1 → pendingMu (client w1) = true.
Proof.
  revert w. induction s as [|it s IH]; intros w; rewrite await_from_eq;
    unfold mu_acquire at 1; destruct (pendingMu (client w)); simpl;
    try done; try (by intros [= <-]).
  apply IH.
Qed.

Lemma Lock_Ret w w1 : Lock w = Ret tt w1 → pendingMu (client w1) = true.
Proof. apply await_mu_acquire_Ret. Qed.

(** What [send] does, by cases: on the wait for the mutex, on the lookup,
    on the size of the queue, on the socket. *)
Lemma send_cases dest msg w :
  let xid := MsgTransactionID msg in
  send dest msg w =
  match Lock w with
  | Ret _ w1 =>
      match pending (client w1) !! xid with
      | Some _ => Ret (inl (errInUse xid)) (on_client (set_pendingMu false) w1)
      | None =>
          if bufferCap (client w1) <? 0 then Panic w1
          else
            match conn (client w1) with
            | None => Panic (registered xid w1)
            | Some k =>
                let w3 := log (EvWriteTo (ToBytes msg) dest (WriteTo (ToBytes msg) dest k).2)
                            (on_client (set_conn (Some (WriteTo (ToBytes msg) dest k).1))
                               (registered xid w1)) in
                match (WriteTo (ToBytes msg) dest k).2 with
                | Some e =>
                    (cancel xid (Datatypes.S (next w1));;
                     mret (inl (errWriting (Error e)))) w3
                | None => Ret (inr (next w1, (xid, Datatypes.S (next w1)))) w3
                end
            end
      end
  | Parked w1 => Parked w1
  | Panic w1 => Panic w1
  end.
Proof.
  intros xid. unfold send. fold xid. unfold mbind at 1, M_bind at 1.
  destruct (Lock w) as [[] w1|w1|w1] eqn:EL; [|done..].
  apply Lock_Ret in EL.
  unfold mbind at 1, M_bind at 1, gets at 1.
  destruct (pending (client w1) !! xid) as [p|] eqn:Hp.
  - unfold Unlock, mu_release, mbind, M_bind, mret, M_ret. by rewrite EL.
  - unfold mbind at 1, M_bind at 1, gets at 1.
    unfold mbind at 1, M_bind at 1, make_chan at 1.
    destruct (bufferCap (client w1) <? 0); [done|].
    unfold mbind at 1, M_bind at 1, make_chan at 1. simpl.
    unfold mbind at 1, M_bind at 1, modify at 1.
    unfold mbind at 1, M_bind at 1, modify at 1.
    unfold mbind at 1, M_bind at 1, Unlock, mu_release. simpl. rewrite EL.
    unfold mbind at 1, M_bind at 1, conn_WriteTo. simpl.
    destruct (conn (client w1)) as [k|] eqn:Hk; [|done].
    destruct (WriteTo (ToBytes msg) dest k) as [k' [e|]] eqn:Hw; simpl; done.
Qed.

(** ** Attempts: what a call registers and writes *)

Lemma fresh_registrations_app xid n k1 k2 :
  fresh_registrations xid n (k1 + k2)
  = fresh_registrations xid n k1
    ++ fresh_registrations xid (n + 2 * k1) k2.
Proof.
  revert n. induction k1 as [|k1 IH]; intros n; simpl.
  - by rewrite Nat.add_0_r.
  - rewrite IH. do 3 f_equal. lia.
Qed.

Lemma quiet_attempted xid b dest w w' :
  quiet w w' → attempted xid b dest 0 0 w w'.
Proof.
  intros (_ & R & W & N & K & _). unfold attempted. simpl.
  rewrite !app_nil_r, Nat.add_0_r. by split_and!.
Qed.

Lemma attempted_trans xid b dest kr1 kw1 kr2 kw2 w1 w2 w3 :
  attempted xid b dest kr1 kw1 w1 w2 →
  attempted xid b dest kr2 kw2 w2 w3 →
  attempted xid b dest (kr1 + kr2) (kw1 + kw2) w1 w3.
Proof.
  intros (R1 & W1 & N1 & K1 & L1 & E1) (R2 & W2 & N2 & K2 & L2 & E2).
  unfold attempted. split_and!.
  - rewrite R2, R1, N1, fresh_registrations_app. by rewrite app_assoc.
  - rewrite W2, W1, replicate_add. by rewrite app_assoc.
  - lia.
  - auto.
  - lia.
  - intros Hk. rewrite E1, E2; auto.
Qed.

Lemma attempted_quiet_r xid b dest kr kw w1 w2 w3 :
  attempted xid b dest kr kw w1 w2 → quiet w2 w3 →
  attempted xid b dest kr kw w1 w3.
Proof.
  intros H1 H2. apply (quiet_attempted xid b dest) in H2.
  pose proof (attempted_trans _ _ _ _ _ _ _ _ _ _ H1 H2) as H3.
  by rewrite !Nat.add_0_r in H3.
Qed.

Lemma attempted_quiet_l xid b dest kr kw w1 w2 w3 :
  quiet w1 w2 → attempted xid b dest kr kw w2 w3 →
  attempted xid b dest kr kw w1 w3.
Proof.
  intros H1 H2. apply (quiet_attempted xid b dest) in H1.
  exact (attempted_trans _ _ _ _ _ _ _ _ _ _ H1 H2).
Qed.

(** Registering (lines 271-274) is one registration and no write. *)
Lemma attempted_registered xid w :
  registrations (trace (registered xid w))
    = registrations (trace w) ++ fresh_registrations xid (next w) 1
  ∧ writes (trace (registered xid w)) = writes (trace w)
  ∧ next (registered xid w) = (next w + 2)%nat
  ∧ conn (client (registered xid w)) = conn (client w).
Proof.
  unfold registered. simpl.
  rewrite registrations_app, writes_app. simpl. rewrite app_nil_r.
  split_and!; [done | done | lia | done].
Qed.

(** One [send]: nothing registered and nothing written, or one
    registration and (the socket being there) one write of the datagram to
    [dest]. *)
Lemma send_attempted dest msg w :
  ∃ kr kw, (kr ≤ 1)%nat
    ∧ attempted (MsgTransactionID msg) (ToBytes msg) dest kr kw w
        (final (send dest msg w)).
Proof.
  rewrite send_cases. pose proof (quiet_Lock w) as HL.
  destruct (Lock w) as [[] w1|w1|w1] eqn:EL; simpl in HL;
    [|exists 0%nat, 0%nat; split; [lia | by apply quiet_attempted]..].
  destruct (pending (client w1) !! MsgTransactionID msg) as [p|] eqn:Hp.
  { exists 0%nat, 0%nat. split; [lia|]. apply quiet_attempted. simpl.
    eapply quiet_trans; [exact HL|]. pose proof (quiet_mu_release w1) as Hr.
    unfold mu_release in Hr. rewrite (Lock_Ret _ _ EL) in Hr. exact Hr. }
  destruct (bufferCap (client w1) <? 0).
  { exists 0%nat, 0%nat. split; [lia | by apply quiet_attempted]. }
  destruct (attempted_registered (MsgTransactionID msg) w1) as (R & W & N & K).
  destruct (conn (client w1)) as [k|] eqn:Hk.
  - exists 1%nat, 1%nat. split; [lia|].
    apply (attempted_quiet_l _ _ _ _ _ w w1); [done|].
    set (w3 := log _ _).
    assert (attempted (MsgTransactionID msg) (ToBytes msg) dest 1 1 w1 w3) as H3.
    { unfold attempted, w3, registered. simpl.
      rewrite !registrations_app, !writes_app. simpl. rewrite !app_nil_r.
      split_and!; try done; try lia. }
    destruct (WriteTo (ToBytes msg) dest k).2 as [e|]; [|exact H3].
    eapply attempted_quiet_r; [exact H3|].
    rewrite final_bind. pose proof (quiet_cancel (MsgTransactionID msg)
      (Datatypes.S (next w1)) w3) as Hc.
    destruct (cancel _ _ w3); simpl in *; exact Hc.
  - exists 1%nat, 0%nat. split; [lia|].
    apply (attempted_quiet_l _ _ _ _ _ w w1); [done|].
    unfold attempted. simpl final. rewrite R, W, N, K, Hk. simpl.
    rewrite app_nil_r. split_and!; try done; try lia; by intros [? ?].
Qed.

(** One attempt: the same, the wait and the deferred [cancel] being
    quiet. *)
Lemma attempt_body_attempted ctx dest msg match_ tmo w :
  ∃ kr kw, (kr ≤ 1)%nat
    ∧ attempted (MsgTransactionID msg) (ToBytes msg) dest kr kw w
        (final (attempt_body ctx dest msg match_ tmo w)).
Proof.
  unfold attempt_body. rewrite final_bind.
  destruct (send_attempted dest msg w) as (kr & kw & Hle & Ha).
  exists kr, kw. split; [done|].
  destruct (send dest msg w) as [[err|[ch [xid d]]] w1|w1|w1]; simpl in *;
    try done.
  eapply attempted_quiet_r; [exact Ha|].
  rewrite final_bind. pose proof (quiet_wait ctx match_ ch tmo w1) as Hw.
  destruct (wait ctx match_ ch tmo w1) as [res w2|w2|w2]; simpl in *; try done.
  eapply quiet_trans; [exact Hw|].
  rewrite final_bind. pose proof (quiet_cancel xid d w2) as Hc.
  destruct (cancel xid d w2); simpl in *; exact Hc.
Qed.

(** The retry loop: at most one registration per script, each with its
    own pair of channels, and as many writes of the one datagram. *)
Lemma retryFn_loop_attempted ctx dest msg match_ scripts :
  ∀ i tmo resp w,
  ∃ kr kw, (kr ≤ length scripts)%nat
    ∧ attempted (MsgTransactionID msg) (ToBytes msg) dest kr kw w
        (final (retryFn_loop (λ s, retry (client s.2))
                  (attempt ctx dest msg match_) i tmo scripts (resp, w))).2.
Proof.
  induction scripts as [|script scripts IH]; intros i tmo resp w;
    rewrite retryFn_loop_eq;
    (destruct (attempts_remain _ i (resp, w));
      [|exists 0%nat, 0%nat; split; [simpl; lia|];
        apply quiet_attempted, quiet_refl]).
  { exists 0%nat, 0%nat. split; [done|]. apply quiet_attempted, quiet_refl. }
  unfold attempt at 1.
  destruct (attempt_body_attempted ctx dest msg match_ tmo (set_sched script w))
    as (kr & kw & Hle & Ha).
  apply (attempted_quiet_l _ _ _ _ _ w) in Ha; [|apply quiet_set_sched].
  destruct (attempt_body ctx dest msg match_ tmo (set_sched script w))
    as [[err|packet] w1|w1|w1]; simpl in Ha;
    try (exists kr, kw; split; [simpl; lia | exact Ha]).
  destruct (decide (err = context_DeadlineExceeded));
    [|exists kr, kw; split; [simpl; lia | exact Ha]].
  destruct (IH (wrap64 (i + 1)) (wrap64 (tmo * 2)) resp w1)
    as (kr' & kw' & Hle' & Ha').
  exists (kr + kr')%nat, (kw + kw')%nat. split; [simpl; lia|].
  eapply attempted_trans; [exact Ha | exact Ha'].
Qed.

Lemma SendAndRead_final ctx dest msg match_ scripts w :
  final (SendAndRead ctx dest msg match_ scripts w)
  = (final (retry_attempts ctx dest msg match_ scripts (None, w))).2.
Proof.
  unfold SendAndRead.
  destruct (retry_attempts ctx dest msg match_ scripts (None, w))
    as [x [resp w']|[resp w']|[resp w']]; simpl; [|done..].
  destruct (exit_err x) as [err|]; [|done]. by destruct (decide _).
Qed.

Lemma SendAndRead_attempted ctx dest msg match_ scripts w :
  ∃ kr kw, (kr ≤ length scripts)%nat
    ∧ attempted (MsgTransactionID msg) (ToBytes msg) dest kr kw w
        (final (SendAndRead ctx dest msg match_ scripts w)).
Proof.
  rewrite SendAndRead_final. apply retryFn_loop_attempted.
Qed.

(** *** The registration is gone when the attempt returns *)

Lemma cancel_removes xid d w w' :
  cancel xid d w = Ret tt w' → pending (client w') !! xid = None.
Proof.
  unfold cancel, mbind, M_bind.
  destruct (close_chan d w) as [[] w1|?|?]; [|done..].
  destruct (Lock w1) as [[] w2|?|?]; [|done..]. unfold gets.
  destruct (pending (client w2) !! xid) as [p|] eqn:Hp.
  - destruct (remove_pending xid p w2) as [[] w3|?|?] eqn:ER; [|done..].
    apply remove_pending_Ret in ER as (q & _ & _ & ->).
    unfold Unlock, mu_release. simpl.
    destruct (pendingMu (client w2)); [|done]. intros [= <-]. simpl.
    apply lookup_delete_eq.
  - unfold mret, M_ret, Unlock, mu_release.
    destruct (pendingMu (client w2)); [|done]. by intros [= <-].
Qed.

Lemma attempt_body_clears ctx dest msg match_ tmo w v w' :
  pending (client w) !! MsgTransactionID msg = None →
  attempt_body ctx dest msg match_ tmo w = Ret v w' →
  pending (client w') !! MsgTransactionID msg = None.
Proof.
  intros Hp. unfold attempt_body. unfold mbind at 1, M_bind at 1.
  rewrite send_cases. pose proof (quiet_Lock w) as HL.
  destruct (Lock w) as [[] w1|w1|w1]; simpl in HL; [|done..].
  destruct HL as (_ & _ & _ & _ & _ & Hnone & _).
  rewrite (Hnone _ Hp).
  destruct (bufferCap (client w1) <? 0); [done|].
  destruct (conn (client w1)) as [k|]; [|done].
  set (w3 := log _ _).
  destruct (WriteTo (ToBytes msg) dest k).2 as [e|].
  - unfold mbind, M_bind, mret, M_ret.
    destruct (cancel _ _ w3) as [[] w4|?|?] eqn:Ec; [|done..].
    intros [= <- <-]. by apply cancel_removes in Ec.
  - unfold mbind, M_bind, mret, M_ret.
    destruct (wait ctx match_ (next w1) tmo w3) as [res w4|?|?]; [|done..].
    destruct (cancel _ _ w4) as [[] w5|?|?] eqn:Ec; [|done..].
    intros [= <- <-]. by apply cancel_removes in Ec.
Qed.

Lemma retryFn_loop_clears ctx dest msg match_ scripts :
  ∀ i tmo resp w x resp' w',
  pending (client w) !! MsgTransactionID msg = None →
  retryFn_loop (λ s, retry (client s.2)) (attempt ctx dest msg match_)
    i tmo scripts (resp, w) = Ret x (resp', w') →
  pending (client w') !! MsgTransactionID msg = None.
Proof.
  induction scripts as [|script scripts IH]; intros i tmo resp w x resp' w' Hp;
    rewrite retryFn_loop_eq;
    (destruct (attempts_remain _ i (resp, w)); [|by intros [= <- <- <-]]);
    [done|].
  unfold attempt at 1.
  destruct (attempt_body ctx dest msg match_ tmo (set_sched script w))
    as [[err|packet] w1|w1|w1] eqn:Ea; [| |done..].
  - apply attempt_body_clears in Ea; [|done].
    destruct (decide (err = context_DeadlineExceeded)).
    + by apply IH.
    + by intros [= <- <- <-].
  - apply attempt_body_clears in Ea; [|done]. by intros [= <- <- <-].
Qed.

Lemma SendAndRead_clears ctx dest msg match_ scripts w v w' :
  pending (client w) !! MsgTransactionID msg = None →
  SendAndRead ctx dest msg match_ scripts w = Ret v w' →
  pending (client w') !! MsgTransactionID msg = None.
Proof.
  intros Hp. unfold SendAndRead, retry_attempts, retryFn.
  destruct (retryFn_loop _ _ _ _ _ _) as [x [resp w1]|[resp w1]|[resp w1]] eqn:E;
    [|done..].
  apply retryFn_loop_clears in E; [|done].
  destruct (exit_err x) as [err|]; [destruct (decide _)|]; by intros [= <- <-].
Qed.

(** *** One registration per attempt *)

Lemma call_events_app t1 t2 :
  call_events (t1 ++ t2) = call_events t1 ++ call_events t2.
Proof.
  induction t1 as [|[] t1 IH]; simpl; by rewrite ?IH.
Qed.

Lemma call_events_none tr :
  registrations tr = [] → writes tr = [] → call_events tr = [].
Proof.
  induction tr as [|[] tr IH]; simpl; try done; auto.
Qed.

(** Quiet steps add nothing of what callers do to the trace. *)
Lemma quiet_silent w w' :
  quiet w w' → ∃ tr, trace w' = trace w ++ tr ∧ call_events tr = [].
Proof.
  intros ([tr Htr] & R & W & _). exists tr. split; [done|].
  rewrite Htr, registrations_app in R. rewrite Htr, writes_app in W.
  apply call_events_none.
  - apply (app_inv_head (registrations (trace w))). by rewrite app_nil_r.
  - apply (app_inv_head (writes (trace w))). by rewrite app_nil_r.
Qed.

(** An attempt that returns has registered the id with channels of its
    own, then written the datagram, and has removed the registration. *)
Lemma attempt_body_one_attempt ctx dest msg match_ tmo w v w' :
  is_Some (conn (client w)) →
  pending (client w) !! MsgTransactionID msg = None →
  attempt_body ctx dest msg match_ tmo w = Ret v w' →
  one_attempt (MsgTransactionID msg) (ToBytes msg) dest w w'
  ∧ is_Some (conn (client w')).
Proof.
  intros Hk Hp. unfold attempt_body. unfold mbind at 1, M_bind at 1.
  rewrite send_cases. pose proof (quiet_Lock w) as HL.
  destruct (Lock w) as [[] w1|w1|w1]; simpl in HL; [|done..].
  destruct (quiet_silent _ _ HL) as (tr1 & Ht1 & Hs1).
  destruct HL as (_ & _ & _ & Hn1 & Hk1 & Hnone & _).
  rewrite (Hnone _ Hp).
  destruct (bufferCap (client w1) <? 0); [done|].
  destruct (Hk1 Hk) as [k Hk']. rewrite Hk'.
  set (w3 := log _ _).
  assert (∀ w4, quiet w3 w4 →
            pending (client w4) !! MsgTransactionID msg = None →
            one_attempt (MsgTransactionID msg) (ToBytes msg) dest w w4
            ∧ is_Some (conn (client w4))) as Hfin.
  { intros w4 Hq Hgone. destruct (quiet_silent _ _ Hq) as (tr2 & Ht2 & Hs2).
    destruct Hq as (_ & _ & _ & Hn4 & Hk4 & _).
    split; [|apply Hk4; by eexists].
    exists (tr1 ++ [EvRegister (MsgTransactionID msg)
                      (pendingCh.mk (Datatypes.S (next w1)) (next w1));
                    EvWriteTo (ToBytes msg) dest (WriteTo (ToBytes msg) dest k).2]
              ++ tr2).
    split_and!.
    - rewrite Ht2. unfold w3, registered. simpl. rewrite Ht1.
      by rewrite <- !app_assoc.
    - rewrite !call_events_app, Hs1, Hs2. simpl. by rewrite Hn1.
    - rewrite Hn4. simpl. by rewrite Hn1.
    - done. }
  destruct (WriteTo (ToBytes msg) dest k).2 as [e|].
  - unfold mbind, M_bind, mret, M_ret.
    pose proof (quiet_cancel (MsgTransactionID msg) (Datatypes.S (next w1)) w3) as Hc.
    destruct (cancel _ _ w3) as [[] w4|?|?] eqn:Ec; [|done..].
    intros [= <- <-]. apply Hfin; [exact Hc | by apply cancel_removes in Ec].
  - unfold mbind, M_bind, mret, M_ret.
    pose proof (quiet_wait ctx match_ (next w1) tmo w3) as Hw.
    destruct (wait ctx match_ (next w1) tmo w3) as [res w4|?|?]; [|done..].
    pose proof (quiet_cancel (MsgTransactionID msg) (Datatypes.S (next w1)) w4) as Hc.
    destruct (cancel _ _ w4) as [[] w5|?|?] eqn:Ec; [|done..].
    intros [= <- <-]. apply Hfin; [|by apply cancel_removes in Ec].
    eapply quiet_trans; [exact Hw | exact Hc].
Qed.

Lemma attempt_Ret ctx dest msg match_ script tmo resp w o resp' w' :
  attempt ctx dest msg match_ script tmo (resp, w) = Ret o (resp', w') →
  ∃ v, attempt_body ctx dest msg match_ tmo (set_sched script w) = Ret v w'.
Proof.
  unfold attempt.
  destruct (attempt_body ctx dest msg match_ tmo (set_sched script w))
    as [[err|packet] w1|w1|w1]; intros [= _ _ <-]; eauto.
Qed.

(** The attempts of the retry loop, one after the other. *)
Lemma retryFn_states_attempts ctx dest msg match_ scripts :
  ∀ i tmo resp w,
  is_Some (conn (client w)) →
  pending (client w) !! MsgTransactionID msg = None →
  let ws := map snd (retryFn_states (λ s, retry (client s.2))
                       (attempt ctx dest msg match_) i tmo scripts (resp, w)) in
  each_attempt (one_attempt (MsgTransactionID msg) (ToBytes msg) dest) w ws
  ∧ ∀ x resp' w',
      retryFn_loop (λ s, retry (client s.2)) (attempt ctx dest msg match_)
        i tmo scripts (resp, w) = Ret x (resp', w') →
      w' = default w (last ws).
Proof.
  induction scripts as [|script scripts IH]; intros i tmo resp w Hk Hp ws;
    subst ws; rewrite retryFn_states_eq, retryFn_loop_eq;
    (destruct (attempts_remain _ i (resp, w));
       [|split; [done | by intros x resp' w' [= _ _ <-]]]);
    [done|].
  destruct (attempt ctx dest msg match_ script tmo (resp, w))
    as [o [resp1 w1]|[? ?]|[? ?]] eqn:Ea; [|done..].
  destruct (attempt_Ret _ _ _ _ _ _ _ _ _ _ _ Ea) as [v Hv].
  apply attempt_body_one_attempt in Hv as [Ha Hk1]; [|done..].
  assert (pending (client w1) !! MsgTransactionID msg = None) as Hp1.
  { by destruct Ha as (? & _ & _ & _ & ?). }
  destruct o as [err|]; [destruct (decide (err = context_DeadlineExceeded))|].
  - destruct (IH (wrap64 (i + 1)) (wrap64 (tmo * 2)) resp1 w1 Hk1 Hp1) as [Hc Hl].
    cbn [map snd each_attempt]. split; [by split|].
    intros x resp' w' E. rewrite (Hl x resp' w' E), last_cons.
    by destruct (last _).
  - cbn [map snd each_attempt]. split; [by split|].
    by intros x resp' w' [= _ _ <-].
  - cbn [map snd each_attempt]. split; [by split|].
    by intros x resp' w' [= _ _ <-].
Qed.

Lemma registrations_call_events tr :
  registrations tr
  = omap (λ e, match e with
               | Registered xid p => Some (xid, p)
               | Written _ _ => None
               end) (call_events tr).
Proof. induction tr as [|[] tr IH]; simpl; by rewrite ?IH. Qed.

Lemma writes_call_events tr :
  writes tr
  = omap (λ e, match e with
               | Registered _ _ => None
               | Written b dest => Some (b, dest)
               end) (call_events tr).
Proof. induction tr as [|[] tr IH]; simpl; by rewrite ?IH. Qed.

(** As many registrations, each with the next two channels, and as many
    writes as attempts. *)
Lemma each_attempt_counts xid b dest ws :
  ∀ w,
  each_attempt (one_attempt xid b dest) w ws →
  registrations (trace (default w (last ws)))
  = registrations (trace w) ++ fresh_registrations xid (next w) (length ws)
  ∧ writes (trace (default w (last ws)))
    = writes (trace w) ++ replicate (length ws) (b, dest).
Proof.
  induction ws as [|w1 ws IH]; intros w; simpl.
  { intros _. by rewrite !app_nil_r. }
  intros [(tr & Ht & Hev & Hn & _) Hc].
  destruct (IH w1 Hc) as [R W].
  assert (default w (last (w1 :: ws)) = default w1 (last ws)) as ->.
  { rewrite last_cons. by destruct (last ws). }
  rewrite R, W, Ht, registrations_app, writes_app,
    (registrations_call_events tr), (writes_call_events tr), Hev, Hn. simpl.
  by rewrite <- !app_assoc.
Qed.

(** C4, as amended.  A call makes one registration per attempt.  With the
    socket present and the TransactionID free, every attempt of
    [SendAndRead] that returns, the first and each retry, has added to
    what callers do exactly a registration of the id with two channels
    made for it and then a write of the datagram to [dest], and at its end
    the id is registered no more.  The state the call returns in is the
    one its last attempt ended in: by then it has made as many
    registrations, each with channels of its own, and as many writes of
    the one datagram as it made attempts. *)
Theorem SendAndRead_registers_per_attempt ctx dest msg match_ scripts w :
  is_Some (conn (client w)) →
  pending (client w) !! MsgTransactionID msg = None →
  let ws := attempt_states ctx dest msg match_ scripts w in
  each_attempt (one_attempt (MsgTransactionID msg) (ToBytes msg) dest) w ws
  ∧ (∀ v w', SendAndRead ctx dest msg match_ scripts w = Ret v w' →
       w' = default w (last ws)
       ∧ registrations (trace w')
         = registrations (trace w)
           ++ fresh_registrations (MsgTransactionID msg) (next w) (length ws)
       ∧ writes (trace w')
         = writes (trace w) ++ replicate (length ws) (ToBytes msg, dest)
       ∧ pending (client w') !! MsgTransactionID msg = None).
Proof.
  intros Hk Hp ws. subst ws. unfold attempt_states.
  destruct (retryFn_states_attempts ctx dest msg match_ scripts 0
              (timeout (client w)) None w Hk Hp) as [Hc Hl].
  split; [exact Hc|]. intros v w' Hret.
  assert (w' = default w (last (map snd
            (retryFn_states (λ s, retry (client s.2))
               (attempt ctx dest msg match_) 0 (timeout (client w)) scripts
               (None, w))))) as Hlast.
  { revert Hret. unfold SendAndRead, retry_attempts, retryFn.
    destruct (retryFn_loop _ _ _ _ _ _)
      as [x [resp w1]|[resp w1]|[resp w1]] eqn:E; [|done..].
    destruct (exit_err x) as [err|]; [destruct (decide _)|]; intros [= _ <-];
      exact (Hl x resp w1 eq_refl). }
  split; [exact Hlast|].
  destruct (each_attempt_counts _ _ _ _ _ Hc) as [R W].
  rewrite <- Hlast in R, W. split; [exact R|]. split; [exact W|].
  by apply SendAndRead_clears in Hret.
Qed.

(** *** Where Solicit and Request send *)

(** The first attempt of a call that can start writes the datagram. *)
Lemma attempt_body_sends ctx dest msg match_ tmo w :
  pending (client w) !! MsgTransactionID msg = None →
  pendingMu (client w) = false →
  0 ≤ bufferCap (client w) →
  is_Some (conn (client w)) →
  attempted (MsgTransactionID msg) (ToBytes msg) dest 1 1 w
    (final (attempt_body ctx dest msg match_ tmo w)).
Proof.
  intros Hp Hmu Hcap [k Hk]. unfold attempt_body.
  rewrite final_bind, send_cases, (Lock_free w Hmu). simpl. rewrite Hp.
  destruct (Z.ltb_spec (bufferCap (client w)) 0) as [?|_]; [lia|].
  rewrite Hk. set (w3 := log _ _).
  assert (attempted (MsgTransactionID msg) (ToBytes msg) dest 1 1 w w3) as H3.
  { unfold attempted, w3, registered. simpl.
    rewrite !registrations_app, !writes_app. simpl. rewrite !app_nil_r.
    split_and!; try done; try lia. }
  destruct (WriteTo (ToBytes msg) dest k).2 as [e|].
  - eapply attempted_quiet_r; [exact H3|].
    pose proof (quiet_cancel (MsgTransactionID msg) (Datatypes.S (next w))
                  w3) as Hc.
    unfold mbind, M_bind, mret, M_ret.
    destruct (cancel _ _ w3); simpl in *; exact Hc.
  - eapply attempted_quiet_r; [exact H3|]. simpl.
    rewrite final_bind.
    pose proof (quiet_wait ctx match_ (next w) tmo w3) as Hw.
    destruct (wait ctx match_ (next w) tmo w3) as [res w4|w4|w4]; simpl in *;
      try done.
    eapply quiet_trans; [exact Hw|].
    rewrite final_bind.
    pose proof (quiet_cancel (MsgTransactionID msg) (Datatypes.S (next w))
                  w4) as Hc.
    destruct (cancel _ _ w4); simpl in *; exact Hc.
Qed.

Lemma attempts_remain_start resp w :
  retry (client w) ≠ 0 →
  attempts_remain (λ s : option Message * World, retry (client s.2)) 0
    (resp, w) = true.
Proof.
  intros Hr. unfold attempts_remain. simpl. apply orb_true_iff.
  destruct (Z.ltb_spec 0 (retry (client w))); [by left|].
  right. apply Z.ltb_lt. lia.
Qed.

(** A call that can start writes its datagram at least once, and writes
    nothing else. *)
Lemma SendAndRead_sends ctx dest msg match_ script scripts w :
  pending (client w) !! MsgTransactionID msg = None →
  pendingMu (client w) = false →
  0 ≤ bufferCap (client w) →
  is_Some (conn (client w)) →
  retry (client w) ≠ 0 →
  ∃ j, writes (trace (final (SendAndRead ctx dest msg match_ (script :: scripts) w)))
       = writes (trace w) ++ replicate (Datatypes.S j) (ToBytes msg, dest).
Proof.
  intros Hp Hmu Hcap Hk Hr. rewrite SendAndRead_final.
  unfold retry_attempts, retryFn. rewrite retryFn_loop_eq.
  rewrite attempts_remain_start by done. unfold attempt at 1. cbn [snd].
  pose proof (attempt_body_sends ctx dest msg match_ (timeout (client w))
                (set_sched script w) Hp Hmu Hcap Hk) as Ha.
  assert (∀ w1, attempted (MsgTransactionID msg) (ToBytes msg) dest 1 1
                  (set_sched script w) w1 →
            writes (trace w1)
            = writes (trace w) ++ replicate 1 (ToBytes msg, dest)) as Hone.
  { by intros w1 (_ & W & _). }
  destruct (attempt_body ctx dest msg match_ (timeout (client w))
              (set_sched script w)) as [[err|packet] w1|w1|w1];
    simpl in Ha; try (exists 0%nat; by apply Hone).
  destruct (decide (err = context_DeadlineExceeded));
    [|exists 0%nat; by apply Hone].
  destruct (retryFn_loop_attempted ctx dest msg match_ scripts
              (wrap64 (0 + 1)) (wrap64 (timeout (client w) * 2)) None w1)
    as (kr & kw & _ & Ha').
  exists kw.
  destruct (attempted_trans _ _ _ _ _ _ _ _ _ _ Ha Ha') as (_ & W & _).
  exact W.
Qed.

(** C10.  Whatever address [WithBroadcastAddr] stored in [serverAddr]:
    every datagram that [Solicit] and [Request] hand to the socket is the
    message they built, addressed to [AllDHCPServers]; and they do hand it
    to the socket, at least once, when the call can start (the id and the
    mutex are free, the queue size is not negative, there is a socket and
    the retry count and the schedule let an attempt run). *)
Theorem Solicit_Request_to_AllDHCPServers n ctx modifiers advertise scripts w
    solicit request :
  NewSolicit (ifaceHWAddr (client w)) modifiers = inr solicit →
  NewRequestFromAdvertise advertise modifiers = inr request →
  let w0 := on_client (WithBroadcastAddr n) w in
  (∃ k, writes (trace (final (Solicit ctx modifiers scripts w0)))
        = writes (trace w0) ++ replicate k (ToBytes solicit, AllDHCPServers)
      ∧ (can_start (MsgTransactionID solicit) w0 → scripts ≠ [] → (1 ≤ k)%nat))
  ∧ (∃ k, writes (trace (final (Request ctx advertise modifiers scripts w0)))
          = writes (trace w0) ++ replicate k (ToBytes request, AllDHCPServers)
        ∧ (can_start (MsgTransactionID request) w0 → scripts ≠ [] → (1 ≤ k)%nat)).
Proof.
  intros Hs Hq w0. split.
  - unfold Solicit. rewrite final_bind. unfold gets. simpl. rewrite Hs.
    rewrite final_bind.
    destruct (SendAndRead_attempted ctx AllDHCPServers solicit
                (Some (IsMessageType MessageTypeAdvertise)) scripts w0)
      as (kr & kw & _ & (_ & W & _)).
    assert (can_start (MsgTransactionID solicit) w0 → scripts ≠ [] →
            (1 ≤ kw)%nat) as Hlow.
    { intros (Hp & Hmu & Hcap & Hk & Hr) Hne.
      destruct scripts as [|script scripts]; [done|].
      destruct (SendAndRead_sends ctx AllDHCPServers solicit
                  (Some (IsMessageType MessageTypeAdvertise)) script scripts w0
                  Hp Hmu Hcap Hk Hr) as [j Hj].
      rewrite Hj in W. apply app_inv_head in W.
      apply (f_equal length) in W. rewrite !length_replicate in W. lia. }
    exists kw. split; [|exact Hlow]. clear Hlow.
    destruct (SendAndRead _ _ _ _ _ w0) as [[m [e|]] w1|w1|w1]; simpl in *; done.
  - unfold Request. rewrite Hq.
    destruct (SendAndRead_attempted ctx AllDHCPServers request None scripts w0)
      as (kr & kw & _ & (_ & W & _)).
    exists kw. split; [exact W|].
    intros (Hp & Hmu & Hcap & Hk & Hr) Hne.
    destruct scripts as [|script scripts]; [done|].
    destruct (SendAndRead_sends ctx AllDHCPServers request None script scripts w0
                Hp Hmu Hcap Hk Hr) as [j Hj].
    rewrite Hj in W. apply app_inv_head in W.
    apply (f_equal length) in W. rewrite !length_replicate in W. lia.
Qed.

(** *** Shutdown during and before a call *)

(** [cancel] returns when the mutex is free and the entry it finds has an
    open queue. *)
Lemma cancel_Ret xid d w p cd q :
  chans w !! d = Some cd → is_closed cd = false →
  pendingMu (client w) = false →
  pending (client w) !! xid = Some p → pendingCh.ch p ≠ d →
  chans w !! pendingCh.ch p = Some q → is_closed q = false →
  ∃ w', cancel xid d w = Ret tt w'.
Proof.
  intros Hd Hdc Hmu Hp Hne Hq Hqc. unfold cancel.
  set (w1 := set_chans (<[d := mkChan (buf cd) (cap cd) true]> (chans w)) w).
  assert (close_chan d w = Ret tt w1) as Hc.
  { unfold close_chan. by rewrite Hd, Hdc. }
  rewrite (bind_Ret _ _ _ _ _ Hc).
  assert (pendingMu (client w1) = false) as Hmu1 by done.
  rewrite (bind_Ret _ _ _ _ _ (Lock_free w1 Hmu1)).
  unfold mbind at 1, M_bind at 1, gets. simpl. rewrite Hp.
  unfold remove_pending, mbind, M_bind, close_chan, modify, Unlock, mu_release.
  simpl. rewrite lookup_insert_ne by done. rewrite Hq, Hqc. simpl.
  by eexists.
Qed.

(** The wait has gone along [pre] without its [select] taking a case, the
    shutdown signal is raised, and the [select] now takes the shutdown
    case: the wait ends with [ErrNoResponse]. *)
Lemma wait_from_shutdown ctx match_ ch t pre rest :
  ∀ w w2,
  wait_from ctx match_ ch t pre w = Parked w2 →
  done (client w2) = true →
  wait_from ctx match_ ch t (pre ++ Select CaseDone :: rest) w
  = Ret (inl ErrNoResponse) (set_sched rest w2).
Proof.
  induction pre as [|it pre IH]; intros w w2.
  { simpl. intros [= <-]. simpl. by intros ->. }
  assert (∀ w0,
    received match_ pre (wait_from ctx match_ ch t pre) (chan_recv ch w0) w0
      = Parked w2 →
    done (client w2) = true →
    received match_ (pre ++ Select CaseDone :: rest)
      (wait_from ctx match_ ch t (pre ++ Select CaseDone :: rest))
      (chan_recv ch w0) w0
    = Ret (inl ErrNoResponse) (set_sched rest w2)) as Hrecv.
  { intros w0. unfold received.
    destruct (chan_recv ch w0) as [packet w1|w1|w1]; try apply IH.
    destruct match_ as [f|]; [destruct packet as [m|]; [destruct (f m)|]|];
      try done.
    apply IH. }
  destruct it as [b| |c err|[]]; simpl;
    try (case_match; [apply Hrecv | apply IH]).
  - destruct (done (client w)); [done | apply IH].
  - done.
  - destruct (ctxs w !! ctx); [done | apply IH].
  - apply Hrecv.
Qed.

(** C7, as amended.  A call is in one of its attempts, the [i]-th of the
    retry loop: the attempt's send has succeeded and the wait has gone
    along [pre] (steps of the other goroutines, packets the matcher
    refused, cases that were not ready) without ending.  The shutdown
    signal is raised by then, and the [select] takes the shutdown case.
    Then all the call still does is to run the deferred [cancel] and
    return [ErrNoResponse]: no further attempt is made, whatever the
    timeout, the retry count and the caller's context. *)
Theorem SendAndRead_shutdown ctx dest msg match_ i t resp w script scripts
    ch xid d w1 pre rest w2 :
  attempts_remain (λ s : option Message * World, retry (client s.2)) i (resp, w)
    = true →
  send dest msg (set_sched script w) = Ret (inr (ch, (xid, d))) w1 →
  sched w1 = pre ++ Select CaseDone :: rest →
  wait_from ctx match_ ch t pre w1 = Parked w2 →
  done (client w2) = true →
  SendAndRead_from i t resp ctx dest msg match_ (script :: scripts) w
  = (cancel xid d;; mret (None, Some ErrNoResponse)) (set_sched rest w2).
Proof.
  intros Hi Hsend Hsched Hwait Hdone.
  unfold SendAndRead_from. rewrite retryFn_loop_eq, Hi.
  unfold attempt at 1, attempt_body.
  rewrite (bind_Ret _ _ _ _ _ Hsend).
  assert (wait ctx match_ ch t w1 = Ret (inl ErrNoResponse) (set_sched rest w2))
    as Hw.
  { unfold wait. rewrite Hsched. by apply wait_from_shutdown. }
  rewrite (bind_Ret _ _ _ _ _ Hw).
  unfold mbind, M_bind, mret, M_ret.
  by destruct (cancel xid d (set_sched rest w2)) as [[] w4|w4|w4].
Qed.

(** A call is [SendAndRead_from] the first iteration, and goes from one
    iteration to the next when an attempt ends in
    [context.DeadlineExceeded]. *)
Lemma SendAndRead_from_start ctx dest msg match_ scripts w :
  SendAndRead ctx dest msg match_ scripts w
  = SendAndRead_from 0 (timeout (client w)) None ctx dest msg match_ scripts w.
Proof. reflexivity. Qed.

Lemma SendAndRead_from_again ctx dest msg match_ i t resp w script scripts resp' w' :
  attempts_remain (λ s : option Message * World, retry (client s.2)) i (resp, w)
    = true →
  attempt ctx dest msg match_ script t (resp, w)
    = Ret (Some context_DeadlineExceeded) (resp', w') →
  SendAndRead_from i t resp ctx dest msg match_ (script :: scripts) w
  = SendAndRead_from (wrap64 (i + 1)) (wrap64 (t * 2)) resp'
      ctx dest msg match_ scripts w'.
Proof.
  intros Hi Ha. unfold SendAndRead_from.
  by rewrite (retryFn_loop_again _ _ _ _ _ _ _ _ Hi Ha).
Qed.

End call_facts.

(** ** The calls at work *)

(** C1 (the code at the failing input).  Two retries, base timeout one
    second, no response: the call writes one datagram (not three), its one
    timer ran for the base timeout (nothing is doubled), and it returns
    [ErrNoResponse].  With zero retries it returns [ErrNoResponse] having
    written nothing. *)
Theorem SendAndRead_silence_sends_once :
  returned run_silence = Some (None, Some ErrNoResponse)
  ∧ writes (trace (final run_silence)) = [(ToBytes solicit1, AllDHCPServers)]
  ∧ timeouts (trace (final run_silence)) = [Second]
  ∧ returned run_silence_retry0 = Some (None, Some ErrNoResponse)
  ∧ writes (trace (final run_silence_retry0)) = [].
Proof. split_and!; reflexivity. Qed.

(** C2 (the code at the failing input).  The caller's context reaches its
    deadline during the first wait: the call does not return
    [context.DeadlineExceeded]; it registers and writes again for every
    retry left and in the end returns [ErrNoResponse]. *)
Theorem SendAndRead_context_deadline_retried :
  returned run_ctx_deadline = Some (None, Some ErrNoResponse)
  ∧ writes (trace (final run_ctx_deadline))
    = replicate 3 (ToBytes solicit1, AllDHCPServers).
Proof. split; reflexivity. Qed.

(** An explicit cancel is returned as it is, after the one write. *)
Lemma SendAndRead_context_cancel_returned :
  returned run_ctx_cancel = Some (None, Some context_Canceled)
  ∧ writes (trace (final run_ctx_cancel)) = [(ToBytes solicit1, AllDHCPServers)].
Proof. split; reflexivity. Qed.

(** C4, as stated, fails: the call of [run_ctx_deadline] made three
    registrations, each with channels of its own. *)
Lemma SendAndRead_registers_again : ¬ registers_once xid1 world0 (final run_ctx_deadline).
Proof.
  intros [p Hp]. vm_compute in Hp. discriminate Hp.
Qed.

Lemma SendAndRead_registers_per_attempt_witness :
  let ws := attempt_states 7%nat AllDHCPServers solicit1 None
              [[CtxDone 7%nat context_DeadlineExceeded; Select CaseCtx];
               [Select CaseCtx]; [Select CaseCtx]; [Select CaseCtx]] world0 in
  length ws = 3%nat
  ∧ each_attempt (one_attempt xid1 (ToBytes solicit1) AllDHCPServers) world0 ws
  ∧ final run_ctx_deadline = default world0 (last ws)
  ∧ registrations (trace (final run_ctx_deadline))
    = [(xid1, pendingCh.mk 1 0); (xid1, pendingCh.mk 3 2); (xid1, pendingCh.mk 5 4)]
  ∧ writes (trace (final run_ctx_deadline))
    = replicate 3 (ToBytes solicit1, AllDHCPServers).
Proof.
  intros ws.
  assert (length ws = 3%nat) as Hlen by (by vm_compute).
  split; [exact Hlen|].
  destruct (SendAndRead_registers_per_attempt 7%nat AllDHCPServers solicit1 None
    [[CtxDone 7%nat context_DeadlineExceeded; Select CaseCtx];
     [Select CaseCtx]; [Select CaseCtx]; [Select CaseCtx]] world0)
    as [Hc Hl]; [by eexists | reflexivity |].
  split; [exact Hc|].
  destruct (Hl (None, Some ErrNoResponse) (final run_ctx_deadline))
    as (Hlast & R & W & _); [by vm_compute|].
  fold ws in Hlast, R, W. rewrite Hlen in R, W.
  split; [exact Hlast|]. split; [exact R | exact W].
Defined.

(** [Solicit] on a client configured with another address: its datagram
    goes to [AllDHCPServers]. *)
Lemma Solicit_ignores_serverAddr :
  serverAddr (client world_server1) = server1
  ∧ server1 ≠ AllDHCPServers
  ∧ writes (trace (final (Solicit 0%nat [] [[Select CaseTimeout]] world_server1)))
    = [(ToBytes (mkMessage 1 (x0a, x0b, x0c)%byte hw0), AllDHCPServers)].
Proof. split_and!; [reflexivity | done | reflexivity]. Qed.

(** C7, as stated, fails: [Close] has raised the shutdown signal while the
    call waits, the caller's context is cancelled as well, and the call
    returns the context's error. *)
Lemma shutdown_call_returns_context_error :
  done (client (final run_shutdown_cancel)) = true
  ∧ returned run_shutdown_cancel = Some (None, Some context_Canceled)
  ∧ returned run_shutdown_cancel ≠ Some (None, Some ErrNoResponse).
Proof. split_and!; [reflexivity | reflexivity | done]. Qed.

(** A call started after [Close] on a socket that refuses writes once
    closed returns the write's error. *)
Lemma call_after_close_returns_write_error :
  done (client world_closed) = true
  ∧ returned run_after_close
    = Some (None, Some (errWriting "use of closed network connection")).
Proof. split; reflexivity. Qed.

Lemma SendAndRead_shutdown_witness :
  let match_ := Some (IsMessageType MessageTypeAdvertise) in
  let w1 := final (send AllDHCPServers solicit1
                     (set_sched script_shutdown world_reply_retried)) in
  let w2 := final (wait_from 7%nat match_ 2%nat (2 * (5 * Second))
                     script_reply w1) in
  done (client world_reply_retried) = false
  ∧ queue w2 2%nat = Some []
  ∧ SendAndRead_from 1 (2 * (5 * Second)) None 7%nat AllDHCPServers solicit1
      match_ [script_shutdown] world_reply_retried
    = (cancel xid1 3%nat;; mret (None, Some ErrNoResponse)) (set_sched [] w2)
  ∧ returned (SendAndRead 7%nat AllDHCPServers solicit1 match_
                [script_deadline; script_shutdown] world_reply)
    = Some (None, Some ErrNoResponse).
Proof.
  intros match_ w1 w2.
  split; [by vm_compute|]. split; [by vm_compute|]. split; [|by vm_compute].
  apply (SendAndRead_shutdown 7%nat AllDHCPServers solicit1 match_
           1 (2 * (5 * Second)) None world_reply_retried script_shutdown []
           2%nat xid1 3%nat w1 script_reply [] w2); by vm_compute.
Defined.

Lemma Solicit_Request_to_AllDHCPServers_witness :
  serverAddr (client world_server1) = server1
  ∧ (∃ k, (1 ≤ k)%nat
       ∧ writes (trace (final (Solicit 0%nat [] [[Select CaseTimeout]] world_server1)))
         = replicate k (ToBytes (mkMessage 1 (x0a, x0b, x0c)%byte hw0),
                        AllDHCPServers))
  ∧ (∃ k, (1 ≤ k)%nat
       ∧ writes (trace (final (Request 0%nat advertise1 []
                                 [[Select CaseTimeout]] world_server1)))
         = replicate k (ToBytes (mkMessage 3 xid1 [x2a]%byte), AllDHCPServers)).
Proof.
  split; [reflexivity|].
  destruct (Solicit_Request_to_AllDHCPServers server1 0%nat [] advertise1
              [[Select CaseTimeout]] world0
              (mkMessage 1 (x0a, x0b, x0c)%byte hw0)
              (mkMessage 3 xid1 [x2a]%byte))
    as [(k1 & W1 & H1) (k2 & W2 & H2)]; [reflexivity | reflexivity |].
  split.
  - exists k1. split; [|exact W1].
    apply H1; [|done]. unfold can_start. split_and!; try (by vm_compute).
    by eexists.
  - exists k2. split; [|exact W2].
    apply H2; [|done]. unfold can_start. split_and!; try (by vm_compute).
    by eexists.
Defined.

(** * Further properties of the code *)

(** ** retryFn (lines 344-364) *)

Lemma doubled_shift base j : doubled (wrap64 (base * 2)) j = doubled base (Datatypes.S j).
Proof. induction j as [|j IH]; simpl; [done|]. by rewrite IH. Qed.

(** While nothing overflows, the [j]-th timeout is [base * 2 ^ j]. *)
Lemma doubled_exact base j :
  0 ≤ base → base * 2 ^ Z.of_nat j < 2 ^ 63 → doubled base j = base * 2 ^ Z.of_nat j.
Proof.
  intros Hb. induction j as [|j IH]; intros Hlt; simpl doubled.
  - rewrite Z.pow_0_r. lia.
  - rewrite Nat2Z.inj_succ, Z.pow_succ_r in * by lia.
    rewrite IH by nia. rewrite wrap64_exact; [lia|].
    unfold int64_range. nia.
Qed.

Lemma retry_policy_loop retries outcomes :
  retries < 2 ^ 63 →
  ∀ i t s,
  ∃ k, (0 ≤ retries → 0 ≤ i → i + Z.of_nat k ≤ retries ∨ k = 0%nat)
    ∧ final (retryFn_loop (λ _ : list Z, retries)
               (λ (o : option error) t s, Ret o (s ++ [t])) i t outcomes s)
      = s ++ map (doubled t) (seq 0 k).
Proof.
  intros Hr. induction outcomes as [|o outcomes IH]; intros i t s;
    rewrite retryFn_loop_eq.
  - exists 0%nat. split; [by right|]. simpl. rewrite app_nil_r.
    by destruct (attempts_remain _ _ _).
  - destruct (attempts_remain (λ _ : list Z, retries) i s) eqn:Eg; simpl;
      [|exists 0%nat; split; [by right|]; simpl; by rewrite app_nil_r].
    assert (0 ≤ retries → 0 ≤ i → i < retries) as Hlt.
    { intros ? ?. unfold attempts_remain in Eg.
      apply orb_true_iff in Eg as [Eg|Eg]; apply Z.ltb_lt in Eg; lia. }
    destruct o as [err|]; simpl;
      [|exists 1%nat; split; [intros ? ?; left; lia | done]].
    destruct (decide (err = context_DeadlineExceeded));
      [|exists 1%nat; split; [intros ? ?; left; lia | done]].
    destruct (IH (wrap64 (i + 1)) (wrap64 (t * 2)) (s ++ [t])) as (k & Hk & ->).
    exists (Datatypes.S k). split.
    + intros H0 Hi. left.
      rewrite (wrap64_exact (i + 1)) in Hk by (unfold int64_range; lia).
      destruct Hk as [Hk| ->]; lia.
    + rewrite <- app_assoc. simpl. do 2 f_equal.
      rewrite <- fmap_S_seq, <- list_fmap_compose.
      apply list_fmap_ext. intros ? j _. apply doubled_shift.
Qed.

(** X1.  With a retry count [r >= 0] the closure is called at most [r]
    times, and whatever the retry count, its [j]-th call (from 0) is given
    the base timeout doubled [j] times in [int64]. *)
Theorem retry_policy_schedule base retries outcomes :
  retries < 2 ^ 63 →
  let ts := final (retry_policy base retries outcomes) in
  ts = map (doubled base) (seq 0 (length ts))
  ∧ (0 ≤ retries → Z.of_nat (length ts) ≤ retries).
Proof.
  intros Hr ts. subst ts. unfold retry_policy, retryFn.
  destruct (retry_policy_loop retries outcomes Hr 0 base []) as (k & Hk & ->).
  simpl. rewrite length_map, length_seq. split; [done|].
  intros H0. destruct (Hk H0) as [?| ->]; [done|lia|simpl; lia].
Qed.

Lemma retry_policy_schedule_witness :
  final (retry_policy Second 3
           [Some context_DeadlineExceeded; Some context_DeadlineExceeded;
            Some context_DeadlineExceeded; Some context_DeadlineExceeded])
  = [Second; 2 * Second; 4 * Second].
Proof.
  destruct (retry_policy_schedule Second 3
              [Some context_DeadlineExceeded; Some context_DeadlineExceeded;
               Some context_DeadlineExceeded; Some context_DeadlineExceeded])
    as [Hts _]; [done|].
  rewrite Hts. reflexivity.
Defined.

(** X2.  With a negative retry count [retryFn] never returns by
    exhaustion (line 363): only an attempt's outcome ends it. *)
Theorem retryFn_unlimited {S A} (c_timeout c_retry : S → Z)
    (fn : A → Z → M S (option error)) envs s s' :
  (∀ s, c_retry s < 0) →
  retryFn c_timeout c_retry fn envs s ≠ Ret ExitExhausted s'.
Proof. intros Hneg. unfold retryFn. by apply retryFn_loop_negative. Qed.

Lemma retryFn_unlimited_witness :
  retry_policy 1 (-1)
    [Some context_DeadlineExceeded; Some context_DeadlineExceeded]
  ≠ Ret ExitExhausted [1; 2].
Proof.
  apply (retryFn_unlimited (λ _, 1) (λ _, -1)). intros _. lia.
Defined.

(** ** SendAndRead: the ways a call ends (lines 264-342) *)

Section call_ends.
Context {C : Type} `{!PacketConn C} `{!Dhcpv6}.
Implicit Types w : @World C.

(** X3.  With a retry count of 0 a call makes no attempt at all: it
    returns [ErrNoResponse] at once, with nothing registered, nothing
    written and the state untouched. *)
Theorem SendAndRead_zero_retries ctx dest msg match_ scripts w :
  retry (client w) = 0 →
  SendAndRead ctx dest msg match_ scripts w = Ret (None, Some ErrNoResponse) w.
Proof.
  intros Hr. unfold SendAndRead, retry_attempts, retryFn.
  rewrite retryFn_loop_eq. unfold attempts_remain. simpl. by rewrite Hr.
Qed.

(** The default exit of the retry loop never carries
    [context.DeadlineExceeded]. *)
Lemma retryFn_loop_default_exit {S A} (c_retry : S → Z)
    (fn : A → Z → M S (option error)) envs :
  ∀ i t s err s',
  retryFn_loop c_retry fn i t envs s = Ret (ExitDefault err) s' →
  err ≠ context_DeadlineExceeded.
Proof.
  induction envs as [|a envs IH]; intros i t s err s';
    rewrite retryFn_loop_eq; destruct (attempts_remain _ _ _); try done.
  destruct (fn a t s) as [[e|] s1| |]; try done.
  destruct (decide (e = context_DeadlineExceeded)); [by apply IH|].
  by intros [= <- <-].
Qed.

(** X4.  A call never returns [errDeadlineExceeded] (the internal error
    that "should never be visible to a user") nor
    [context.DeadlineExceeded], and with an error it returns no message. *)
Theorem SendAndRead_hides_deadline_errors ctx dest msg match_ scripts w m err w' :
  SendAndRead ctx dest msg match_ scripts w = Ret (m, Some err) w' →
  err ≠ errDeadlineExceeded ∧ err ≠ context_DeadlineExceeded ∧ m = None.
Proof.
  unfold SendAndRead, retry_attempts, retryFn.
  destruct (retryFn_loop _ _ _ _ _ _) as [x [resp w1]|[resp w1]|[resp w1]] eqn:E;
    [|done..].
  destruct x as [|e|]; simpl; [done| |by intros [= <- <- <-]].
  apply retryFn_loop_default_exit in E.
  destruct (decide (e = errDeadlineExceeded)); intros [= <- <- <-]; done.
Qed.

(** X5.  A registration conflict is fatal to the call and not retried: if
    the TransactionID is registered when the call starts (the mutex being
    free and the retry count not 0), the call returns the "in use" error
    and leaves registry, channels, socket and trace as they were. *)
Theorem SendAndRead_in_use ctx dest msg match_ script scripts w p :
  pending (client w) !! MsgTransactionID msg = Some p →
  pendingMu (client w) = false →
  retry (client w) ≠ 0 →
  SendAndRead ctx dest msg match_ (script :: scripts) w
  = Ret (None, Some (errInUse (MsgTransactionID msg))) (set_sched script w).
Proof.
  intros Hp Hmu Hr. unfold SendAndRead, retry_attempts, retryFn.
  rewrite retryFn_loop_eq.
  assert (attempts_remain (λ s : option Message * World, retry (client s.2)) 0
            (None, w) = true) as ->.
  { unfold attempts_remain. simpl. apply orb_true_iff.
    destruct (Z.ltb_spec 0 (retry (client w))); [by left|].
    right. apply Z.ltb_lt. lia. }
  unfold attempt at 1, attempt_body. unfold mbind at 1, M_bind at 1.
  rewrite (send_in_use_fails_aux dest msg (set_sched script w) p) by done.
  done.
Qed.


(** X6.  A write failure is fatal to the call and not retried: the call
    returns the "error writing packet" error after that one [WriteTo],
    and the registration it made is removed again. *)
Theorem SendAndRead_write_failure ctx dest msg match_ script scripts w k e :
  pending (client w) !! MsgTransactionID msg = None →
  pendingMu (client w) = false →
  0 ≤ bufferCap (client w) →
  conn (client w) = Some k →
  (WriteTo (ToBytes msg) dest k).2 = Some e →
  retry (client w) ≠ 0 →
  ∃ w', SendAndRead ctx dest msg match_ (script :: scripts) w
        = Ret (None, Some (errWriting (Error e))) w'
    ∧ writes (trace w') = writes (trace w) ++ [(ToBytes msg, dest)]
    ∧ pending (client w') !! MsgTransactionID msg = None.
Proof.
  intros Hp Hmu Hcap Hk Hwr Hr. unfold SendAndRead, retry_attempts, retryFn.
  rewrite retryFn_loop_eq.
  assert (attempts_remain (λ s : option Message * World, retry (client s.2)) 0
            (None, w) = true) as ->.
  { unfold attempts_remain. simpl. apply orb_true_iff.
    destruct (Z.ltb_spec 0 (retry (client w))); [by left|].
    right. apply Z.ltb_lt. lia. }
  unfold attempt at 1, attempt_body. unfold mbind at 1, M_bind at 1.
  rewrite send_cases, (Lock_free _ (Hmu : pendingMu (client (set_sched script w)) = false)).
  simpl. rewrite Hp.
  destruct (Z.ltb_spec (bufferCap (client w)) 0) as [?|_]; [lia|].
  rewrite Hk, Hwr.
  set (w3 := log _ _).
  edestruct (cancel_Ret (MsgTransactionID msg) (Datatypes.S (next w)) w3)
    as [w4 Hw4].
  { simpl. apply lookup_insert_eq. }
  { done. }
  { done. }
  { simpl. apply lookup_insert_eq. }
  { simpl. lia. }
  { simpl. rewrite lookup_insert_ne by lia. apply lookup_insert_eq. }
  { done. }
  rewrite (bind_Ret _ _ _ _ _ Hw4). simpl.
  exists w4. split; [done|].
  pose proof (quiet_cancel (MsgTransactionID msg) (Datatypes.S (next w)) w3) as Hq.
  rewrite Hw4 in Hq. simpl in Hq. destruct Hq as (_ & _ & -> & _). split.
  - unfold w3, registered. simpl. rewrite !writes_app. simpl.
    by rewrite app_nil_r.
  - by apply cancel_removes in Hw4.
Qed.

(** X8.  [cancel] unblocks a blocked receive loop (the comment of lines
    277-283).  The loop holds the mutex at its [select], blocked on the
    full queue of [p]; the caller's [cancel] closes [done] before it asks
    for the mutex, so the loop's next step takes the [done] case, closes
    the queue, removes the entry and then unlocks; [cancel] gets the mutex,
    finds no entry and returns.  The queue was closed once, by the loop. *)
Theorem cancel_unblocks_loop xid w msg p cd q b1 b2 s :
  loop w = AtSelect msg p →
  MsgTransactionID msg = xid →
  pendingMu (client w) = true →
  chans w !! pendingCh.done p = Some cd → is_closed cd = false →
  chans w !! pendingCh.ch p = Some q → is_closed q = false →
  pendingCh.ch p ≠ pendingCh.done p →
  send_ready None (pendingCh.ch p) w = false →
  sched w = Worker b1 :: Worker b2 :: s →
  ∃ w', cancel xid (pendingCh.done p) w = Ret tt w'
    ∧ pending (client w') !! xid = None
    ∧ loop w' = AtRead
    ∧ pendingMu (client w') = false
    ∧ chans w' !! pendingCh.ch p = Some (mkChan (buf q) (cap q) true)
    ∧ trace w' = trace w ++ [EvRemove xid p].
Proof.
  intros Hl <- Hmu Hd Hdc Hq Hqc Hne Hfull Hs. unfold cancel.
  set (w1 := set_chans (<[pendingCh.done p := mkChan (buf cd) (cap cd) true]> (chans w)) w).
  assert (close_chan (pendingCh.done p) w = Ret tt w1) as Hc.
  { unfold close_chan. by rewrite Hd, Hdc. }
  rewrite (bind_Ret _ _ _ _ _ Hc).
  assert (chans w1 !! pendingCh.ch p = Some q) as Hq1.
  { unfold w1. simpl. by rewrite lookup_insert_ne. }
  assert (send_ready None (pendingCh.ch p) w1 = false) as Hfull1.
  { unfold send_ready in *. rewrite Hq1. by rewrite Hq in Hfull. }
  assert (closed_chan (pendingCh.done p) w1 = true) as Hdone1.
  { unfold closed_chan, w1. simpl. by rewrite lookup_insert_eq. }
  (* the loop's step at the select *)
  set (w2 := set_loop AtUnlock
    (log (EvRemove (MsgTransactionID msg) p)
      (on_client (λ c, set_pending (delete (MsgTransactionID msg) (pending c)) c)
        (set_chans (<[pendingCh.ch p := mkChan (buf q) (cap q) true]> (chans w1)) w1)))).
  assert (∀ b, receiveLoop_step None b w1 = Ret tt w2) as Hstep1.
  { intros b. unfold receiveLoop_step. change (loop w1) with (loop w). rewrite Hl.
    unfold mbind at 1, M_bind at 1, loop_select.
    rewrite Hdone1, Hfull1, orb_true_r. simpl.
    unfold remove_pending, mbind, M_bind, close_chan, modify.
    by rewrite Hq1, Hqc. }
  set (w3 := set_loop AtRead (on_client (set_pendingMu false) w2)).
  assert (∀ b, receiveLoop_step None b w2 = Ret tt w3) as Hstep2.
  { intros b. apply step_unlock; [done|]. exact Hmu. }
  assert (Lock w1 = Ret tt (set_sched s (on_client (set_pendingMu true) w3))) as HL.
  { unfold Lock, await. change (sched w1) with (sched w). rewrite Hs.
    rewrite await_from_eq. unfold mu_acquire at 1.
    change (pendingMu (client w1)) with (pendingMu (client w)). rewrite Hmu.
    simpl env_step. rewrite Hstep1. simpl final.
    rewrite await_from_eq. unfold mu_acquire at 1.
    change (pendingMu (client w2)) with (pendingMu (client w)). rewrite Hmu.
    simpl env_step. rewrite Hstep2. simpl final.
    rewrite await_from_eq. unfold mu_acquire at 1. done. }
  rewrite (bind_Ret _ _ _ _ _ HL).
  unfold mbind at 1, M_bind at 1, gets. simpl.
  rewrite lookup_delete_eq.
  unfold mbind, M_bind, mret, M_ret, Unlock, mu_release. simpl.
  eexists. split; [done|]. simpl.
  split_and!; try done.
  - apply lookup_delete_eq.
  - apply lookup_insert_eq.
Qed.


(** *** A response on its way to the caller *)

(** Three steps of the receive loop on a datagram that decodes to [m],
    whose TransactionID is registered under [p] with an open, empty queue
    on which the caller waits in its receive: read and decode, lock and
    look up, send.  The queue then holds [m], in its buffer or, there
    being no room, handed to the waiting caller; the loop holds the mutex
    and is about to unlock. *)
Lemma loop_hands_over w k1 k2 b a m p qd c b1 b2 b3 :
  loop w = AtRead →
  conn (client w) = Some k1 →
  ReadFrom k1 = Some (k2, inr (b, a)) →
  MessageFromBytes (take 1500 b) = inr m →
  pendingMu (client w) = false →
  pending (client w) !! MsgTransactionID m = Some p →
  chans w !! pendingCh.done p = Some qd → is_closed qd = false →
  chans w !! pendingCh.ch p = Some (mkChan [] c false) →
  let r := Some (pendingCh.ch p) in
  let w1 := set_loop (AtLookup m) (on_client (set_conn (Some k2)) w) in
  let w2 := set_loop (AtSelect m p) (on_client (set_pendingMu true) w1) in
  let w3 := set_loop AtUnlock
              (set_chans (<[pendingCh.ch p := mkChan [m] c false]> (chans w)) w2) in
  receiveLoop_step r b1 w = Ret tt w1
  ∧ receiveLoop_step r b2 w1 = Ret tt w2
  ∧ receiveLoop_step r b3 w2 = Ret tt w3.
Proof.
  intros Hl Hk Hr Hm Hmu Hp Hd Hdc Hq r w1 w2 w3. split_and!.
  - unfold receiveLoop_step. rewrite Hl.
    unfold mbind, M_bind, conn_ReadFrom, modify. by rewrite Hk, Hr, Hm.
  - rewrite (step_lookup r b2 w1 m) by done.
    change (pending (client w1)) with (pending (client w)). by rewrite Hp.
  - unfold receiveLoop_step. simpl loop.
    unfold mbind, M_bind, loop_select, closed_chan, chan_send, modify.
    change (chans w2) with (chans w). rewrite Hd, Hdc, Hq. simpl.
    unfold receiver_waits, r. simpl.
    rewrite bool_decide_eq_true_2 by done. by rewrite orb_true_r.
Qed.

(** A step of the receive loop while the caller waits. *)
Lemma wait_from_worker ctx match_ ch t b s w w1 :
  receiveLoop_step (Some ch) b w = Ret tt w1 →
  wait_from ctx match_ ch t (Worker b :: s) w =
  if handed ch w1
  then received match_ s (wait_from ctx match_ ch t s) (chan_recv ch w1) w1
  else wait_from ctx match_ ch t s w1.
Proof. intros E. simpl. by rewrite E. Qed.

(** [cancel] returns when the receive loop holds the mutex and is about
    to release it, and the entry [cancel] then finds has an open queue. *)
Lemma cancel_Ret_unlock xid d w p cd q b s :
  chans w !! d = Some cd → is_closed cd = false →
  loop w = AtUnlock → pendingMu (client w) = true →
  sched w = Worker b :: s →
  pending (client w) !! xid = Some p → pendingCh.ch p ≠ d →
  chans w !! pendingCh.ch p = Some q → is_closed q = false →
  ∃ w', cancel xid d w = Ret tt w'.
Proof.
  intros Hd Hdc Hl Hmu Hs Hp Hne Hq Hqc. unfold cancel.
  set (w1 := set_chans (<[d := mkChan (buf cd) (cap cd) true]> (chans w)) w).
  assert (close_chan d w = Ret tt w1) as Hc.
  { unfold close_chan. by rewrite Hd, Hdc. }
  rewrite (bind_Ret _ _ _ _ _ Hc).
  set (w2 := set_loop AtRead (on_client (set_pendingMu false) w1)).
  assert (Lock w1 = Ret tt (set_sched s (on_client (set_pendingMu true) w2))) as HL.
  { unfold Lock, await. change (sched w1) with (sched w). rewrite Hs.
    rewrite await_from_eq. unfold mu_acquire at 1.
    change (pendingMu (client w1)) with (pendingMu (client w)). rewrite Hmu.
    simpl env_step. rewrite (step_unlock None b w1) by done. simpl final.
    rewrite await_from_eq. unfold mu_acquire at 1. done. }
  rewrite (bind_Ret _ _ _ _ _ HL).
  unfold mbind at 1, M_bind at 1, gets. simpl. rewrite Hp.
  unfold remove_pending, mbind, M_bind, close_chan, modify, Unlock, mu_release.
  simpl. rewrite lookup_insert_ne by done. rewrite Hq, Hqc. simpl.
  by eexists.
Qed.

(** X9.  The response reaches the caller, whatever the size of its
    queue, an unbuffered one (size 0) included.  The id is free, the mutex
    free, the queue size not negative, the write succeeds, the loop stands
    at its read and the socket's next datagram decodes to a message [m]
    with the request's TransactionID that the matcher accepts (a nil
    matcher accepts it).  When the loop takes its four steps and the
    [select] takes the packet (with no room in the queue it is handed the
    packet by the loop's third step), the call returns [m] and a nil
    error, having written the request once and left no registration
    behind. *)
Theorem SendAndRead_returns_response ctx dest msg match_ w k k1 k2 b a m
    b1 b2 b3 b4 rest scripts :
  pending (client w) !! MsgTransactionID msg = None →
  pendingMu (client w) = false →
  0 ≤ bufferCap (client w) →
  loop w = AtRead →
  retry (client w) ≠ 0 →
  conn (client w) = Some k →
  WriteTo (ToBytes msg) dest k = (k1, None) →
  ReadFrom k1 = Some (k2, inr (b, a)) →
  MessageFromBytes (take 1500 b) = inr m →
  MsgTransactionID m = MsgTransactionID msg →
  (∀ f, match_ = Some f → f m = true) →
  ∃ w', SendAndRead ctx dest msg match_
          ((Worker b1 :: Worker b2 :: Worker b3 :: Worker b4
             :: Select CasePacket :: rest) :: scripts) w
        = Ret (Some m, None) w'
    ∧ writes (trace w') = writes (trace w) ++ [(ToBytes msg, dest)]
    ∧ pending (client w') !! MsgTransactionID msg = None.
Proof.
  intros Hp Hmu Hcap Hl Hr Hk Hwr Hrd Hm Hxid Hmatch.
  unfold SendAndRead, retry_attempts, retryFn. rewrite retryFn_loop_eq.
  rewrite attempts_remain_start by done.
  unfold attempt at 1, attempt_body. unfold mbind at 1, M_bind at 1.
  rewrite send_cases, (Lock_free _ (Hmu : pendingMu (client (set_sched _ w)) = false)).
  simpl. rewrite Hp.
  destruct (Z.ltb_spec (bufferCap (client w)) 0) as [?|_]; [lia|].
  rewrite Hk, Hwr. simpl.
  set (p := pendingCh.mk (Datatypes.S (next w)) (next w)).
  set (w3 := log _ _).
  destruct (loop_hands_over w3 k1 k2 b a m p (mkChan [] 0 false)
              (bufferCap (client w)) b1 b2 b3) as (E1 & E2 & E3);
    [done | done | done | done | done
     | simpl; rewrite Hxid; apply lookup_insert_eq
     | simpl; apply lookup_insert_eq
     | done
     | simpl; rewrite lookup_insert_ne by lia; apply lookup_insert_eq |].
  change (pendingCh.ch p) with (next w) in E1, E2, E3.
  unfold mbind at 1, M_bind at 1, wait. simpl sched.
  assert (∀ (w8 : @World C),
            (∃ w9, cancel (MsgTransactionID msg) (Datatypes.S (next w)) w8
                   = Ret tt w9) →
            writes (trace w8) = writes (trace w) ++ [(ToBytes msg, dest)] →
            ∃ w9, cancel (MsgTransactionID msg) (Datatypes.S (next w)) w8
                  = Ret tt w9
              ∧ writes (trace w9) = writes (trace w) ++ [(ToBytes msg, dest)]
              ∧ pending (client w9) !! MsgTransactionID msg = None) as Hend.
  { intros w8 [w9 Hw9] Hw8. exists w9. split; [done|].
    pose proof (quiet_cancel (MsgTransactionID msg) (Datatypes.S (next w)) w8) as Hq.
    rewrite Hw9 in Hq. simpl in Hq. destruct Hq as (_ & _ & -> & _).
    split; [done|]. by apply cancel_removes in Hw9. }
  assert (writes (trace w3) = writes (trace w) ++ [(ToBytes msg, dest)]) as Hw3.
  { unfold w3, registered. simpl. rewrite !writes_app. simpl.
    by rewrite app_nil_r. }
  rewrite (wait_from_worker _ _ _ _ _ _ _ _ E1).
  assert (∀ (l : list Message) (v : @World C), chans v !! next w = Some (mkChan l (bufferCap (client w)) false) →
            handed (next w) v = (bufferCap (client w) <? Z.of_nat (length l))) as Hh.
  { intros l v Hv. unfold handed. by rewrite Hv. }
  rewrite (Hh []) by (simpl; rewrite lookup_insert_ne by lia; apply lookup_insert_eq).
  replace (bufferCap (client w) <? Z.of_nat (length (@nil Message))) with false
    by (symmetry; apply Z.ltb_ge; simpl; lia).
  rewrite (wait_from_worker _ _ _ _ _ _ _ _ E2).
  rewrite (Hh []) by (simpl; rewrite lookup_insert_ne by lia; apply lookup_insert_eq).
  replace (bufferCap (client w) <? Z.of_nat (length (@nil Message))) with false
    by (symmetry; apply Z.ltb_ge; simpl; lia).
  rewrite (wait_from_worker _ _ _ _ _ _ _ _ E3).
  rewrite (Hh [m]) by (simpl; apply lookup_insert_eq).
  assert (∀ s' again (v : @World C),
            chans v !! next w = Some (mkChan [m] (bufferCap (client w)) false) →
            received match_ s' again (chan_recv (next w) v) v
            = Ret (inr (Some m))
                (set_sched s'
                   (set_chans (<[next w := mkChan [] (bufferCap (client w)) false]>
                                 (chans v)) v))) as Hrecv.
  { intros s' again v Hv. unfold received, chan_recv. rewrite Hv. simpl.
    destruct match_ as [f|]; [|done]. by rewrite (Hmatch f eq_refl). }
  destruct (Z.ltb_spec (bufferCap (client w)) (Z.of_nat (length [m])))
    as [Hzero|Hroom].
  - (* no room: the loop's send has handed [m] over *)
    rewrite Hrecv by (simpl; apply lookup_insert_eq).
    match goal with
    | |- context [(cancel _ _ ≫= _) ?v] =>
        destruct (Hend v) as (w9 & Hw9 & Hwrites & Hgone); [|done|]
    end;
      [|rewrite (bind_Ret _ _ _ _ _ Hw9); simpl; by exists w9].
    eapply (cancel_Ret_unlock _ _ _ p).
    + simpl. rewrite lookup_insert_ne by lia. rewrite lookup_insert_ne by lia.
      apply lookup_insert_eq.
    + done.
    + done.
    + done.
    + done.
    + simpl. apply lookup_insert_eq.
    + simpl. lia.
    + simpl. apply lookup_insert_eq.
    + done.
  - (* [m] is in the buffer: the loop unlocks, the caller takes it *)
    set (v3 := set_loop AtUnlock _) in *.
    rewrite (wait_from_worker _ _ _ _ b4 _ v3
               (set_loop AtRead (on_client (set_pendingMu false) v3)))
      by (by apply step_unlock).
    rewrite (Hh [m]) by (simpl; apply lookup_insert_eq).
    replace (bufferCap (client w) <? Z.of_nat (length [m])) with false
      by (symmetry; by apply Z.ltb_ge).
    cbn [wait_from].
    rewrite Hrecv by (simpl; apply lookup_insert_eq).
    match goal with
    | |- context [(cancel _ _ ≫= _) ?v] =>
        destruct (Hend v) as (w9 & Hw9 & Hwrites & Hgone); [|done|]
    end;
      [|rewrite (bind_Ret _ _ _ _ _ Hw9); simpl; by exists w9].
    eapply (cancel_Ret _ _ _ p).
    + simpl. rewrite lookup_insert_ne by lia. rewrite lookup_insert_ne by lia.
      apply lookup_insert_eq.
    + done.
    + done.
    + simpl. apply lookup_insert_eq.
    + simpl. lia.
    + simpl. apply lookup_insert_eq.
    + done.
Qed.

End call_ends.

Lemma SendAndRead_zero_retries_witness :
  SendAndRead 0%nat AllDHCPServers solicit1 None silence
    (on_client (WithRetry 0) world0)
  = Ret (None, Some ErrNoResponse) (on_client (WithRetry 0) world0).
Proof. by apply SendAndRead_zero_retries. Defined.

Lemma SendAndRead_hides_deadline_errors_witness :
  ErrNoResponse ≠ errDeadlineExceeded
  ∧ ErrNoResponse ≠ context_DeadlineExceeded
  ∧ (None : option Message) = None.
Proof.
  apply (SendAndRead_hides_deadline_errors 7%nat AllDHCPServers solicit1 None
    [[CtxDone 7%nat context_DeadlineExceeded; Select CaseCtx];
     [Select CaseCtx]; [Select CaseCtx]; [Select CaseCtx]]
    world0 None ErrNoResponse (final run_ctx_deadline)).
  by vm_compute.
Defined.

Lemma SendAndRead_in_use_witness :
  SendAndRead 0%nat server1 solicit1 None [[]; []] world_pending1
  = Ret (None, Some (errInUse xid1)) (set_sched [] world_pending1).
Proof.
  apply (SendAndRead_in_use 0%nat server1 solicit1 None [] [[]] world_pending1
           (pendingCh.mk 1 0)); by vm_compute.
Defined.

Lemma SendAndRead_write_failure_witness :
  ∃ w', SendAndRead 0%nat AllDHCPServers solicit1 None silence world_dead
        = Ret (None, Some (errWriting "use of closed network connection")) w'
    ∧ writes (trace w') = [(ToBytes solicit1, AllDHCPServers)]
    ∧ pending (client w') !! xid1 = None.
Proof.
  apply (SendAndRead_write_failure 0%nat AllDHCPServers solicit1 None
           [Select CaseTimeout] _ world_dead conn_dead errClosed);
    by vm_compute.
Defined.

Lemma cancel_unblocks_loop_witness :
  ∃ w', cancel xid1 1%nat (set_sched [Worker true; Worker false] world_full)
        = Ret tt w'
    ∧ pending (client w') !! xid1 = None
    ∧ loop w' = AtRead
    ∧ pendingMu (client w') = false
    ∧ chans w' !! 0%nat = Some (mkChan [advertise1] 1 true)
    ∧ trace w' = trace (set_sched [Worker true; Worker false] world_full)
                 ++ [EvRemove xid1 (pendingCh.mk 1 0)].
Proof.
  apply (cancel_unblocks_loop xid1
           (set_sched [Worker true; Worker false] world_full)
           advertise1 (pendingCh.mk 1 0) (mkChan [] 0 false)
           (mkChan [advertise1] 1 false) true false []);
    by vm_compute.
Defined.

Lemma SendAndRead_returns_response_witness :
  bufferCap (client world_cap0) = 0
  ∧ (∃ w', SendAndRead 0%nat AllDHCPServers solicit1 None [delivery] world_cap0
           = Ret (Some advertise1, None) w'
       ∧ writes (trace w') = [(ToBytes solicit1, AllDHCPServers)]
       ∧ pending (client w') !! xid1 = None)
  ∧ bufferCap (client world_cap1) = 1
  ∧ (∃ w', SendAndRead 0%nat AllDHCPServers solicit1 None [delivery] world_cap1
           = Ret (Some advertise1, None) w'
       ∧ writes (trace w') = [(ToBytes solicit1, AllDHCPServers)]
       ∧ pending (client w') !! xid1 = None).
Proof.
  split; [reflexivity|]. split; [|split; [reflexivity|]].
  - eapply (SendAndRead_returns_response 0%nat AllDHCPServers solicit1 None
              world_cap0 conn_adv _ _ _ server1 advertise1 true true true true [] []);
      by vm_compute.
  - eapply (SendAndRead_returns_response 0%nat AllDHCPServers solicit1 None
              world_cap1 conn_adv _ _ _ server1 advertise1 true true true true [] []);
      by vm_compute.
Defined.

(** ** New and the options (lines 84-108, 180-219) *)

Section new_facts.
Context {C : Type} `{!PacketConn C} `{!Dhcpv6}.
Implicit Types w : @World C.

(** X10.  Without a connection [New] fails: options that leave [conn]
    alone, however many, end in the "require a connection" error and no
    client (and no receive loop) is made. *)
Theorem New_requires_conn hw (opts : list (@ClientOpt C)) :
  Forall (λ opt, ∀ c, conn (opt c) = conn c) opts →
  New hw opts = inl errRequireConn.
Proof.
  intros Hopts. unfold New.
  set (c0 := mkClient hw None _ _ _ _ _ _ _ _ _).
  assert (conn (foldl (λ c opt, opt c) c0 opts) = None) as ->; [|done].
  assert (conn c0 = None) as Hc0 by done.
  revert Hc0. generalize c0. clear c0.
  induction Hopts as [|opt opts Hopt _ IH]; intros c Hc; simpl; [done|].
  apply IH. by rewrite Hopt.
Qed.

Lemma known_opt_keeps (opt : @ClientOpt C) c :
  known_opt opt →
  ifaceHWAddr (opt c) = ifaceHWAddr c ∧ closed (opt c) = closed c
  ∧ done (opt c) = done c ∧ wg (opt c) = wg c
  ∧ pendingMu (opt c) = pendingMu c ∧ pending (opt c) = pending c.
Proof. by intros []. Qed.

(** X11.  [New] with the package's options, when it succeeds, gives a
    client in its initial state: the receive loop started and counted by
    the [WaitGroup], nothing closed, the mutex free, the registry empty
    (and so well formed), no channel made, nothing logged. *)
Theorem New_initial_state hw (opts : list (@ClientOpt C)) w :
  Forall known_opt opts →
  New hw opts = inr w →
  loop w = AtRead ∧ loop_counted w ∧ registry_wf w
  ∧ is_Some (conn (client w))
  ∧ ifaceHWAddr (client w) = hw
  ∧ closed (client w) = 0 ∧ done (client w) = false
  ∧ pendingMu (client w) = false ∧ pending (client w) = ∅
  ∧ chans w = ∅ ∧ trace w = [].
Proof.
  intros Hopts. unfold New.
  set (c0 := mkClient hw None _ _ _ _ _ _ _ _ _).
  assert (ifaceHWAddr c0 = hw ∧ closed c0 = 0 ∧ done c0 = false ∧ wg c0 = 0
          ∧ pendingMu c0 = false ∧ pending c0 = ∅) as Hc0 by done.
  revert Hc0. generalize c0. clear c0.
  induction Hopts as [|opt opts Hopt _ IH]; intros c Hc; simpl.
  - destruct Hc as (Hhw & Hcl & Hd & Hwg & Hmu & Hp).
    destruct (conn c) as [k|] eqn:Hk; [|done]. intros [= <-].
    unfold loop_counted, registry_wf. simpl. rewrite Hwg, Hp.
    split_and!; try done; try (by left); try apply map_Forall_empty.
  - apply IH. destruct (known_opt_keeps opt c Hopt) as (-> & -> & -> & -> & -> & ->).
    done.
Qed.

End new_facts.

Lemma New_requires_conn_witness :
  New (C:=MockConn) hw0 [WithRetry 1; WithBroadcastAddr server1; WithTimeout 3]
  = inl errRequireConn.
Proof.
  apply New_requires_conn. repeat constructor.
Defined.

Lemma New_initial_state_witness :
  New hw0 [WithRetry 1; WithConn conn0; WithRetry 3] = inr world0
  ∧ loop_counted world0 ∧ registry_wf world0.
Proof.
  split; [reflexivity|].
  destruct (New_initial_state hw0 [WithRetry 1; WithConn conn0; WithRetry 3] world0)
    as (_ & Hc & Hwf & _); [repeat constructor | reflexivity |].
  by split.
Defined.

(** ** The receive loop's exit (lines 135-155) *)

Lemma prefix_app_iff (sub s : string) :
  String.prefix sub s = true ↔ ∃ post, s = (sub ++ post)%string.
Proof.
  revert s. induction sub as [|a sub IH]; intros s.
  - split; [|by destruct s]. intros _. by exists s.
  - destruct s as [|b s]; simpl; [split; [done | by intros [? ?]]|].
    destruct (Ascii.ascii_dec a b) as [->|Hne].
    + rewrite IH. split; intros [post Hpost]; exists post; [by rewrite Hpost|].
      by injection Hpost.
    + split; [done|]. intros [post Hpost]. injection Hpost as ? ?. done.
Qed.

Lemma Contains_iff (s sub : string) :
  Contains s sub = true ↔ ∃ pre post, s = (pre ++ sub ++ post)%string.
Proof.
  induction s as [|a s IH]; cbn [Contains].
  - rewrite orb_false_r, prefix_app_iff. split.
    + intros [post Hpost]. by exists EmptyString, post.
    + intros ([|? ?] & post & Hpost); [by exists post | done].
  - rewrite orb_true_iff, prefix_app_iff, IH. split.
    + intros [[post Hpost]|(pre & post & ->)].
      * by exists EmptyString, post.
      * by exists (String a pre), post.
    + intros ([|b pre] & post & Hpost).
      * left. by exists post.
      * right. injection Hpost as -> ->. by exists pre, post.
Qed.

(** X12.  [isErrClosing] holds exactly of the errors whose text contains
    "use of closed network connection". *)
Theorem isErrClosing_spec err :
  isErrClosing err = true ↔
  ∃ pre post,
    Error err = (pre ++ "use of closed network connection" ++ post)%string.
Proof. apply Contains_iff. Qed.

Section exit_facts.
Context {C : Type} `{!PacketConn C} `{!Dhcpv6}.
Implicit Types w : @World C.

(** X13.  Every read error ends the receive loop: the step at the read
    logs the error unless it is the closed-connection one, gives the
    [WaitGroup] its count back and returns, touching neither registry nor
    channels; afterwards the loop takes no step any more. *)
Theorem loop_exits_on_read_error r b w k k' err :
  loop w = AtRead →
  conn (client w) = Some k →
  ReadFrom k = Some (k', inl err) →
  wg (client w) = 1 →
  ∃ w', receiveLoop_step r b w = Ret tt w'
    ∧ loop w' = Exited
    ∧ wg (client w') = 0
    ∧ trace w' = trace w ++ (if isErrClosing err then [] else [EvLog err])
                         ++ [EvLoopExit]
    ∧ pending (client w') = pending (client w)
    ∧ chans w' = chans w
    ∧ ∀ r' b', receiveLoop_step r' b' w' = Parked w'.
Proof.
  intros Hl Hk Hr Hwg. unfold receiveLoop_step at 1. rewrite Hl.
  unfold mbind, M_bind, conn_ReadFrom, wg_Done, modify, mret, M_ret.
  rewrite Hk, Hr.
  destruct (isErrClosing err); simpl; rewrite Hwg; simpl;
    (eexists; split; [done|]; simpl; rewrite <- ?app_assoc; by split_and!).
Qed.

(** X14.  Whatever the other goroutines do while no call makes progress
    (steps of the receive loop, a [Close], contexts firing), the
    [WaitGroup] keeps counting the receive loop, nothing is registered,
    nothing is written to the socket, no channel is made, the
    configuration stays, and a closed client stays closed. *)
Theorem run_env_keeps its w :
  loop_counted w →
  loop_counted (run_env its w) ∧ quiet w (run_env its w).
Proof.
  unfold run_env. revert w. induction its as [|it its IH]; intros w Hw; simpl.
  - split; [done | apply quiet_refl].
  - destruct (IH (env_step None it w) (loop_counted_env None it w Hw)) as [Hc Hq].
    split; [done|]. eapply quiet_trans; [apply quiet_env_step | exact Hq].
Qed.

End exit_facts.

Lemma loop_exits_on_read_error_witness :
  ∃ w', receiveLoop_step None true world_dead = Ret tt w'
    ∧ loop w' = Exited ∧ wg (client w') = 0
    ∧ trace w' = [EvLoopExit].
Proof.
  destruct (loop_exits_on_read_error None true world_dead conn_dead conn_dead
              errClosed)
    as (w' & E & Hl & Hwg & Ht & _); [by vm_compute..|].
  exists w'. by split_and!.
Defined.

Lemma run_env_keeps_witness :
  loop_counted (run_env [Worker true; Closer; Worker false; Closer] world0)
  ∧ closed (client (run_env [Worker true; Closer; Worker false; Closer] world0)) = 1.
Proof.
  destruct (run_env_keeps [Worker true; Closer; Worker false; Closer] world0)
    as [Hc _]; [by left|].
  split; [exact Hc | by vm_compute].
Defined.

(** ** The registry stays well formed *)

Section wf_facts.
Context {C : Type} `{!PacketConn C} `{!Dhcpv6}.
Implicit Types w : @World C.
Local Abbreviation sop := (shrinks_op (C:=C)).

Lemma shrinks_refl w : shrinks w w.
Proof. by split. Qed.

Lemma shrinks_trans w1 w2 w3 : shrinks w1 w2 → shrinks w2 w3 → shrinks w1 w3.
Proof. intros [P1 N1] [P2 N2]. split; [by etrans | congruence]. Qed.

Lemma shrinks_bind {A B} (m : M (@World C) A) (f : A → M (@World C) B) :
  sop m → (∀ a, sop (f a)) → sop (m ≫= f).
Proof.
  intros Hm Hf w. rewrite final_bind. specialize (Hm w).
  destruct (m w) as [a w'| |]; simpl in *; [|done..].
  eapply shrinks_trans; [exact Hm | apply Hf].
Qed.

Lemma shrinks_ret {A} (a : A) : sop (mret a : M (@World C) A).
Proof. intros w. apply shrinks_refl. Qed.

Lemma shrinks_gets {A} (f : @World C → A) : sop (gets f).
Proof. intros w. apply shrinks_refl. Qed.

Lemma shrinks_modify (f : @World C → @World C) :
  (∀ w, shrinks w (f w)) → sop (modify f).
Proof. intros Hf w. apply Hf. Qed.

Ltac shrinks_prim op :=
  intros w; unfold op; repeat case_match; simpl; by split.

Lemma shrinks_close_chan l : sop (close_chan l).
Proof. shrinks_prim @close_chan. Qed.
Lemma shrinks_mu_acquire : sop mu_acquire.
Proof. shrinks_prim @mu_acquire. Qed.
Lemma shrinks_mu_release : sop mu_release.
Proof. shrinks_prim @mu_release. Qed.
Lemma shrinks_conn_ReadFrom : sop conn_ReadFrom.
Proof. shrinks_prim @conn_ReadFrom. Qed.
Lemma shrinks_conn_Close : sop conn_Close.
Proof. shrinks_prim @conn_Close. Qed.
Lemma shrinks_close_done : sop close_done.
Proof. shrinks_prim @close_done. Qed.
Lemma shrinks_CompareAndSwap_closed o n : sop (CompareAndSwap_closed o n).
Proof. shrinks_prim @CompareAndSwap_closed. Qed.
Lemma shrinks_wg_Done : sop wg_Done.
Proof. shrinks_prim @wg_Done. Qed.
Lemma shrinks_chan_send r l m : sop (chan_send r l m).
Proof. shrinks_prim @chan_send. Qed.
Lemma shrinks_chan_recv l : sop (chan_recv l).
Proof. shrinks_prim @chan_recv. Qed.

Lemma shrinks_remove_pending xid p : sop (remove_pending xid p).
Proof.
  unfold remove_pending.
  apply shrinks_bind; [apply shrinks_close_chan|]. intros _.
  apply shrinks_bind; [|intros _]; apply shrinks_modify; intros w; split; try done.
  simpl. apply delete_subseteq.
Qed.

Lemma shrinks_receiveLoop_step r b : sop (receiveLoop_step r b).
Proof.
  intros w. unfold receiveLoop_step. destruct (loop w).
  - apply shrinks_bind; [apply shrinks_conn_ReadFrom|]. intros [err|bs].
    + apply shrinks_bind.
      { case_match; [apply shrinks_ret|]. by apply shrinks_modify. }
      intros _. apply shrinks_bind; [apply shrinks_wg_Done|]. intros _.
      apply shrinks_bind; [|intros _]; by apply shrinks_modify.
    + case_match; [apply shrinks_ret|]. by apply shrinks_modify.
  - apply shrinks_bind; [apply shrinks_mu_acquire|]. intros _.
    apply shrinks_bind; [apply shrinks_gets|]. intros [p|]; by apply shrinks_modify.
  - apply shrinks_bind; [|intros _; by apply shrinks_modify].
    intros w0. unfold loop_select.
    case_match; [apply shrinks_remove_pending | apply shrinks_chan_send].
  - apply shrinks_bind; [apply shrinks_mu_release|]. intros _.
    by apply shrinks_modify.
  - apply shrinks_refl.
Qed.

Lemma shrinks_Close_begin : sop Close_begin.
Proof.
  unfold Close_begin.
  apply shrinks_bind; [apply shrinks_CompareAndSwap_closed|]. intros [|]; simpl.
  - apply shrinks_bind; [apply shrinks_conn_Close|]. intros err.
    apply shrinks_bind; [apply shrinks_close_done|]. intros _. apply shrinks_ret.
  - apply shrinks_ret.
Qed.

Lemma shrinks_env_step r it w : shrinks w (env_step r it w).
Proof.
  destruct it as [b| |ctx err|k]; simpl.
  - apply shrinks_receiveLoop_step.
  - apply shrinks_Close_begin.
  - by case_match.
  - apply shrinks_refl.
Qed.

Lemma registry_wf_shrinks w w' : registry_wf w → shrinks w w' → registry_wf w'.
Proof.
  intros Hwf [Hsub Hn] x p Hx.
  pose proof (lookup_weaken _ _ _ _ Hx Hsub) as Hx'.
  destruct (Hwf x p Hx') as (H1 & H2 & H3 & H4).
  rewrite Hn. split_and!; [done..|].
  intros y q Hy. exact (H4 y q (lookup_weaken _ _ _ _ Hy Hsub)).
Qed.

(** X15.  The other goroutines keep the registry well formed: after any
    schedule of steps of the receive loop, [Close] calls and contexts
    firing, every entry still refers to channels that exist and no two
    entries share a delivery queue; entries are only ever removed. *)
Theorem run_env_registry_wf its w :
  registry_wf w →
  registry_wf (run_env its w)
  ∧ pending (client (run_env its w)) ⊆ pending (client w).
Proof.
  intros Hwf.
  assert (shrinks w (run_env its w)) as Hs.
  { unfold run_env. revert w Hwf. induction its as [|it its IH]; intros w Hwf; simpl.
    - apply shrinks_refl.
    - eapply shrinks_trans; [apply shrinks_env_step|]. apply IH.
      eapply registry_wf_shrinks; [exact Hwf | apply shrinks_env_step]. }
  split; [by eapply registry_wf_shrinks | apply Hs].
Qed.

(** X16.  A successful [send]: with the id free, the mutex free, a
    non-negative queue size and a socket that takes the datagram, [send]
    returns the new queue and the cancel function's [done]; the registry
    maps the id to that pair and is otherwise as before, the queue is
    empty, the mutex is free again, and the registry is still well
    formed. *)
Theorem send_registers dest msg w k :
  registry_wf w →
  pending (client w) !! MsgTransactionID msg = None →
  pendingMu (client w) = false →
  0 ≤ bufferCap (client w) →
  conn (client w) = Some k →
  (WriteTo (ToBytes msg) dest k).2 = None →
  ∃ w', send dest msg w
        = Ret (inr (next w, (MsgTransactionID msg, Datatypes.S (next w)))) w'
    ∧ pending (client w')
      = <[MsgTransactionID msg := pendingCh.mk (Datatypes.S (next w)) (next w)]>
          (pending (client w))
    ∧ queue w' (next w) = Some []
    ∧ closed_chan (Datatypes.S (next w)) w' = false
    ∧ pendingMu (client w') = false
    ∧ registry_wf w'.
Proof.
  intros Hwf Hp Hmu Hcap Hk Hwr.
  rewrite send_cases, (Lock_free w Hmu). simpl. rewrite Hp.
  destruct (Z.ltb_spec (bufferCap (client w)) 0) as [?|_]; [lia|].
  rewrite Hk, Hwr. eexists. split; [done|].
  unfold queue, closed_chan, registered. simpl.
  rewrite lookup_insert_eq. rewrite lookup_insert_ne by lia.
  rewrite lookup_insert_eq. simpl. split_and!; try done.
  intros x p. simpl. intros Hx.
  destruct (decide (x = MsgTransactionID msg)) as [->|Hne].
  - rewrite lookup_insert_eq in Hx. injection Hx as <-. simpl.
    split_and!; try lia.
    intros y q Hy Hyx. rewrite lookup_insert_ne in Hy by done.
    destruct (Hwf y q Hy) as (? & ? & _). lia.
  - rewrite lookup_insert_ne in Hx by done.
    destruct (Hwf x p Hx) as (H1 & H2 & H3 & H4).
    split_and!; try lia.
    intros y q Hy Hxy.
    destruct (decide (y = MsgTransactionID msg)) as [->|Hne'].
    + rewrite lookup_insert_eq in Hy. injection Hy as <-. simpl. lia.
    + rewrite lookup_insert_ne in Hy by done. exact (H4 y q Hy Hxy).
Qed.

End wf_facts.

Lemma run_env_registry_wf_witness :
  registry_wf (run_env [Worker true; Worker true; Worker true; Closer] world_two).
Proof.
  destruct (run_env_registry_wf [Worker true; Worker true; Worker true; Closer]
              world_two) as [Hwf _]; [|exact Hwf].
  apply (bool_decide_unpack _). by vm_compute.
Defined.

Lemma send_registers_witness :
  ∃ w', send AllDHCPServers solicit2 world_pending1
        = Ret (inr (2%nat, (xid2, 3%nat))) w'
    ∧ pending (client w') = <[xid2 := pendingCh.mk 3 2]> (pending (client world_pending1))
    ∧ queue w' 2%nat = Some []
    ∧ closed_chan 3%nat w' = false
    ∧ pendingMu (client w') = false
    ∧ registry_wf w'.
Proof.
  eapply (send_registers AllDHCPServers solicit2 world_pending1).
  - apply (bool_decide_unpack _). by vm_compute.
  - by vm_compute.
  - by vm_compute.
  - by vm_compute.
  - vm_compute. reflexivity.
  - by vm_compute.
Defined.

(** ** What a call returns *)

Section match_facts.
Context {C : Type} `{!PacketConn C} `{!Dhcpv6}.
Implicit Types w : @World C.

(** The packet the wait ends with was accepted by the matcher. *)
Lemma wait_from_matches ctx f ch t s :
  ∀ w packet w',
  wait_from ctx (Some f) ch t s w = Ret (inr packet) w' →
  ∃ m, packet = Some m ∧ f m = true.
Proof.
  induction s as [|it s IH]; intros w packet w'; [done|].
  assert (∀ w0, received (Some f) s (wait_from ctx (Some f) ch t s)
                  (chan_recv ch w0) w0 = Ret (inr packet) w' →
                ∃ m, packet = Some m ∧ f m = true) as Hrecv.
  { intros w0. unfold received.
    destruct (chan_recv ch w0) as [[m|] w1|w1|w1]; try apply IH; [|done].
    destruct (f m) eqn:Hf; [|apply IH]. intros [= <- <-]. by exists m. }
  destruct it as [b| |c err|[]]; simpl;
    try (case_match; [apply Hrecv | apply IH]).
  - destruct (done (client w)); [done | apply IH].
  - done.
  - destruct (ctxs w !! ctx); [done | apply IH].
  - apply Hrecv.
Qed.

Lemma attempt_body_matches ctx dest msg f t w packet w' :
  attempt_body ctx dest msg (Some f) t w = Ret (inr packet) w' →
  ∃ m, packet = Some m ∧ f m = true.
Proof.
  unfold attempt_body, mbind, M_bind.
  destruct (send dest msg w) as [[err|[ch [xid d]]] w1|w1|w1]; try done.
  destruct (wait ctx (Some f) ch t w1) as [res w2|w2|w2] eqn:Ew; [|done..].
  destruct (cancel xid d w2) as [[] w3|w3|w3]; [|done..].
  unfold mret, M_ret. intros [= -> <-]. by apply wait_from_matches in Ew.
Qed.

Lemma retryFn_loop_matches ctx dest msg f scripts :
  ∀ i t resp w resp' w',
  retryFn_loop (λ s, retry (client s.2)) (attempt ctx dest msg (Some f))
    i t scripts (resp, w) = Ret ExitNil (resp', w') →
  ∃ m, resp' = Some m ∧ f m = true.
Proof.
  induction scripts as [|script scripts IH]; intros i t resp w resp' w';
    rewrite retryFn_loop_eq; destruct (attempts_remain _ _ _); try done.
  unfold attempt at 1.
  destruct (attempt_body ctx dest msg (Some f) t (set_sched script w))
    as [[err|packet] w1|w1|w1] eqn:Ea; try done.
  - destruct (decide (err = context_DeadlineExceeded)); [apply IH | done].
  - intros [= <- <-]. by apply attempt_body_matches in Ea.
Qed.

(** A call with a matcher that returns without error returns a message
    the matcher accepts. *)
Lemma SendAndRead_matches ctx dest msg f scripts w r w' :
  SendAndRead ctx dest msg (Some f) scripts w = Ret (r, None) w' →
  ∃ m, r = Some m ∧ f m = true.
Proof.
  unfold SendAndRead, retry_attempts, retryFn.
  destruct (retryFn_loop _ _ _ _ _ _) as [x [resp w1]|[resp w1]|[resp w1]] eqn:E;
    [|done..].
  destruct x as [|e|]; simpl.
  - intros [= <- <-]. by apply retryFn_loop_matches in E.
  - by destruct (decide _).
  - done.
Qed.

(** X17.  [Solicit] "returns the first valid advertisement received":
    when it returns without error, it returns a message, of type
    ADVERTISE, and a nil address. *)
Theorem Solicit_returns_advertise ctx modifiers scripts w r a w' :
  MessageTypeAdvertise ≠ MessageTypeNone →
  Solicit ctx modifiers scripts w = Ret (r, a, None) w' →
  a = None ∧ ∃ m, r = Some m ∧ MsgType m = MessageTypeAdvertise.
Proof.
  intros Hadv. unfold Solicit, mbind, M_bind, gets.
  destruct (NewSolicit (ifaceHWAddr (client w)) modifiers) as [err|solicit];
    [done|].
  destruct (SendAndRead _ _ _ _ _ w) as [[m [e|]] w1|w1|w1] eqn:E; try done.
  unfold mret, M_ret. intros [= <- <- <-]. split; [done|].
  apply SendAndRead_matches in E as (m' & -> & Hm). exists m'. split; [done|].
  unfold IsMessageType in Hm. apply orb_true_iff in Hm as [Hm|Hm].
  - by apply Z.eqb_eq in Hm.
  - by apply Z.eqb_eq in Hm.
Qed.

End match_facts.

Lemma Solicit_returns_advertise_witness :
  Solicit 0%nat [] [delivery] world_sol
    = Ret (Some advertise_sol, None, None)
        (final (Solicit 0%nat [] [delivery] world_sol))
  ∧ MsgType advertise_sol = MessageTypeAdvertise.
Proof.
  assert (Solicit 0%nat [] [delivery] world_sol
          = Ret (Some advertise_sol, None, None)
              (final (Solicit 0%nat [] [delivery] world_sol))) as E
    by (by vm_compute).
  split; [exact E|].
  destruct (Solicit_returns_advertise 0%nat [] [delivery] world_sol
              (Some advertise_sol) None
              (final (Solicit 0%nat [] [delivery] world_sol)))
    as (_ & m & [= <-] & Hm); [intros Heq; discriminate Heq | exact E |].
  exact Hm.
Defined.
